(** * Chattr-Platform: the approval-gated action core, in Rocq

    A shallow embedding of the parts of the repository that carry its
    invariants, each definition translated from the Python source:

    - [Py]          Python values and the [str] methods the code calls;
    - [Logger]      [agent_tools/ragis_logger.py] (PII masking, event records);
    - [TaskQueue]   [agent_tools/task_manager.py] over CPython's [heapq];
    - [Vault]       [secure_vault.py] over an abstract Fernet/PBKDF2/JSON;
    - [Handlers]    [agent_tools/files.py] and [agent_tools/shell.py]
                    (propose / resolve pairs over a session state);
    - [Utils]       [agent_tools/utils.py] (chunking a text);
    - [Agent]       [omni_agent.py] (the PIN gate, the secret workflow);
    - [Retriever]   [agent_tools/memory_retriever.py] (the rarest tag).

    Strings are byte strings: a Python [str] is read as the sequence of its
    ASCII/UTF-8 bytes, and [lower], [strip] and [split] act on the ASCII
    range.  The clock, the temporary-file name generator, the operating
    system's processes and the cipher are inputs of the model. *)

From stdpp Require Import gmap strings list fin_maps sorting.
From Stdlib Require Import ZArith Ascii.

Set Warnings "-register-all".
Local Open Scope Z_scope.

(* ===================================================================== *)
(** ** Python values and string methods                                   *)
(* ===================================================================== *)

Module Py.

(** The Python values that reach the session and the logger: [None],
    [bool], [int], [str], [tuple], [list] and [dict] with string keys (kept
    in insertion order). *)
Inductive pyval :=
| VNone
| VBool (b : bool)
| VInt (z : Z)
| VStr (s : string)
| VTuple (l : list pyval)
| VList (l : list pyval)
| VDict (kvs : list (string * pyval)).

(** [str(x)] of an optional string, as an f-string prints it. *)
Definition str_opt (o : option string) : string :=
  match o with Some s => s | None => "None" end.

Definition opt_val (o : option string) : pyval :=
  match o with Some s => VStr s | None => VNone end.

(** *** Insertion-ordered dictionaries with string keys *)

Fixpoint dict_get {V} (k : string) (d : list (string * V)) : option V :=
  match d with
  | [] => None
  | (k', v) :: d' => if decide (k' = k) then Some v else dict_get k d'
  end.

(** [d[k] = v]: an existing key keeps its position, a new key goes last. *)
Fixpoint dict_set {V} (k : string) (v : V) (d : list (string * V))
  : list (string * V) :=
  match d with
  | [] => [(k, v)]
  | (k', v') :: d' =>
      if decide (k' = k) then (k', v) :: d' else (k', v') :: dict_set k v d'
  end.

(** *** [str] methods *)

Definition ascii_lower (c : ascii) : ascii :=
  let n := nat_of_ascii c in
  if ((65 <=? n) && (n <=? 90))%nat then ascii_of_nat (n + 32) else c.

(** [s.lower()] *)
Fixpoint lower (s : string) : string :=
  match s with
  | EmptyString => EmptyString
  | String c s' => String (ascii_lower c) (lower s')
  end.

(** [s.startswith(p)] *)
Definition startswith (s p : string) : bool := String.prefix p s.

(** [sub in s] *)
Fixpoint contains (sub s : string) : bool :=
  if String.prefix sub s then true
  else match s with
       | EmptyString => false
       | String _ s' => contains sub s'
       end.

(** [c.isspace()] on the ASCII range: TAB..CR, FS..US and space. *)
Definition isspace (c : ascii) : bool :=
  let n := nat_of_ascii c in
  (((9 <=? n) && (n <=? 13)) || ((28 <=? n) && (n <=? 32)))%nat.

Fixpoint lstrip (s : string) : string :=
  match s with
  | EmptyString => EmptyString
  | String c s' => if isspace c then lstrip s' else s
  end.

Fixpoint rstrip (s : string) : string :=
  match s with
  | EmptyString => EmptyString
  | String c s' =>
      match rstrip s' with
      | EmptyString => if isspace c then EmptyString else String c EmptyString
      | r => String c r
      end
  end.

(** [s.strip()] *)
Definition strip (s : string) : string := rstrip (lstrip s).

Fixpoint split_go (s cur : string) : list string :=
  match s with
  | EmptyString => if decide (cur = EmptyString) then [] else [cur]
  | String c s' =>
      if isspace c
      then (if decide (cur = EmptyString) then split_go s' EmptyString
            else cur :: split_go s' EmptyString)
      else split_go s' (cur +:+ String c EmptyString)
  end.

(** [s.split()]: the maximal runs of non-whitespace characters. *)
Definition split (s : string) : list string := split_go s EmptyString.

(** [s[:n]] *)
Definition take_str (n : nat) (s : string) : string := String.substring 0 n s.



(** [any(word in msg for word in words)] *)
Definition any_in (words : list string) (msg : string) : bool :=
  existsb (fun word => contains word msg) words.

(** [c] is one of the ASCII digits. *)
Definition is_digit (c : ascii) : bool :=
  let n := nat_of_ascii c in ((48 <=? n) && (n <=? 57))%nat.

Fixpoint all_chars (p : ascii -> bool) (s : string) : bool :=
  match s with
  | EmptyString => true
  | String c s' => p c && all_chars p s'
  end.

(** [s.isdigit()]: at least one character, all of them digits (the ASCII
    digits; the digits Unicode has beyond them are outside the model). *)
Definition isdigit (s : string) : bool :=
  negb (bool_decide (s = EmptyString)) && all_chars is_digit s.

(** Exceptions the modelled code can let escape. *)
Inductive exn := TypeError (msg : string) | IndexError (msg : string).

(** The outcome of a call that may raise. *)
Inductive result (A : Type) :=
| Ok (a : A)
| Raise (e : exn).
Arguments Ok {A} a.
Arguments Raise {A} e.

Definition bind {A B} (r : result A) (k : A -> result B) : result B :=
  match r with
  | Ok a => k a
  | Raise e => Raise e
  end.

(** Python list indexing [l[i]] with an [int] index: a negative index
    counts from the end, anything outside [-len, len) raises. *)
Definition norm_index {A} (l : list A) (i : Z) : option nat :=
  let n := Z.of_nat (length l) in
  if (0 <=? i) && (i <? n) then Some (Z.to_nat i)
  else if (i <? 0) && (- n <=? i) then Some (Z.to_nat (i + n))
  else None.

Definition list_index {A} (l : list A) (i : Z) : result A :=
  match norm_index l i with
  | Some k =>
      match l !! k with
      | Some x => Ok x
      | None => Raise (IndexError "list index out of range")
      end
  | None => Raise (IndexError "list index out of range")
  end.

(** [l.pop(i)]: the removed element and the shortened list. *)
Definition list_pop {A} (l : list A) (i : Z) : result (A * list A) :=
  match norm_index l i with
  | Some k =>
      match l !! k with
      | Some x => Ok (x, take k l ++ drop (S k) l)
      | None => Raise (IndexError "pop index out of range")
      end
  | None => Raise (IndexError "pop index out of range")
  end.

End Py.

Import Py.

Notation "x <- r ;; k" := (Py.bind r (fun x => k))
(at level 100, r at next level, right associativity, only parsing).

(* ===================================================================== *)
(** ** agent_tools/ragis_logger.py                                        *)
(* ===================================================================== *)

Module Logger.

Definition SYSTEM_VERSION : string := "1.0.0".
Definition TAGGING_VERSION : string := "1.0.0".

(** [RagisLogger.__init__]: [pii_mask_fields or []]. *)
Record RagisLogger := {
  log_path : string;
  pii_mask_fields : list string
}.

(** One line of the log file, before [json.dumps]. *)
Record EventRecord := {
  ts : string;
  event_type : string;
  system_version : string;
  tagging_version : string;
  data : list (string * pyval)
}.

(** The log files, by path: each is the list of records appended so far. *)
Abbreviation LogStore := (gmap string (list EventRecord)).

(** [_mask_pii]: the [isinstance] chain on str, dict, list; else [None]. *)
Fixpoint _mask_pii (value : pyval) : pyval :=
  match value with
  | VStr _ => VStr "[MASKED]"
  | VDict kvs => VDict (map (fun kv => (fst kv, _mask_pii (snd kv))) kvs)
  | VList l => VList (map _mask_pii l)
  | _ => VNone
  end.

(** The loop of [log]: [if field in masked: masked[field] = ...]. *)
Definition mask_field (masked : list (string * pyval)) (field : string)
  : list (string * pyval) :=
  match dict_get field masked with
  | Some v => dict_set field (_mask_pii v) masked
  | None => masked
  end.

Definition mask_fields (fields : list string) (d : list (string * pyval))
  : list (string * pyval) :=
  fold_left mask_field fields d.

(** The [record] built by [log]; [now] is [utc_now_iso()]. *)
Definition make_record (lg : RagisLogger) (now : string) (ev : string)
    (d : list (string * pyval)) : EventRecord :=
  {| ts := now;
     event_type := ev;
     system_version := SYSTEM_VERSION;
     tagging_version := TAGGING_VERSION;
     data := mask_fields (pii_mask_fields lg) d |}.

(** [_write]: append the record to the file at [log_path]. *)
Definition _write (lg : RagisLogger) (record : EventRecord) (logs : LogStore)
  : LogStore :=
  <[log_path lg := default [] (logs !! log_path lg) ++ [record]]> logs.

(** [log(event_type, data)] *)
Definition log (lg : RagisLogger) (now : string) (ev : string)
    (d : list (string * pyval)) (logs : LogStore) : LogStore :=
  _write lg (make_record lg now ev d) logs.



(** The strings a value holds as values, at any depth (the keys of a dict
    are not among them). *)
Fixpoint strings_of (v : pyval) : list string :=
  match v with
  | VStr s => [s]
  | VTuple l => flat_map strings_of l
  | VList l => flat_map strings_of l
  | VDict kvs => flat_map (fun kv => strings_of (snd kv)) kvs
  | _ => []
  end.

(** [log_storage_event(doc_id, session_id, metadata, experiment=None)] *)
Definition log_storage_event (lg : RagisLogger) (now : string)
    (doc_id session_id metadata experiment : pyval) (logs : LogStore)
  : LogStore :=
  log lg now "memory_store"
      [("doc_id", doc_id); ("session_id", session_id);
       ("metadata", metadata); ("experiment", experiment)] logs.

(** [log_batch_storage(doc_ids, session_ids, metadatas, experiment=None)]:
    one [log_storage_event] per triple of [zip], which stops at the shortest
    list.  [clock k] is what [utc_now_iso()] answers to the [k]-th call. *)
Fixpoint log_batch_storage (lg : RagisLogger) (clock : nat -> string)
    (doc_ids session_ids metadatas : list pyval) (experiment : pyval)
    (logs : LogStore) : LogStore :=
  match doc_ids, session_ids, metadatas with
  | doc_id :: doc_ids', session_id :: session_ids', meta :: metadatas' =>
      log_batch_storage lg (fun k => clock (S k))
        doc_ids' session_ids' metadatas' experiment
        (log_storage_event lg (clock O) doc_id session_id meta experiment logs)
  | _, _, _ => logs
  end.

(** [log_retrieval(retrieval_meta)] *)
Definition log_retrieval (lg : RagisLogger) (now : string)
    (retrieval_meta : list (string * pyval)) (logs : LogStore) : LogStore :=
  log lg now "memory_retrieval" retrieval_meta logs.

(** [log_experiment(experiment_type, input_context, results, timing=None)] *)
Definition log_experiment (lg : RagisLogger) (now : string)
    (experiment_type input_context results timing : pyval) (logs : LogStore)
  : LogStore :=
  log lg now "experiment"
      [("experiment_type", experiment_type);
       ("input_context", input_context);
       ("results", results); ("timing", timing)] logs.

(** [rotate_log()]: [os.rename] as on POSIX, where a file at the new path
    is replaced; [ts_str] is the [strftime] of the clock. *)
Definition rotate_log (lg : RagisLogger) (ts_str : string) (logs : LogStore)
  : LogStore :=
  match logs !! log_path lg with
  | None => logs
  | Some recs =>
      let new_path := log_path lg +:+ "." +:+ ts_str in
      <[new_path := recs]> (delete (log_path lg) logs)
  end.

End Logger.

(* ===================================================================== *)
(** ** agent_tools/task_manager.py                                        *)
(* ===================================================================== *)

Module TaskQueue.

(** The dict built by [add_task], with its three fixed keys.  [params] is a
    dict compared by content; its values are read as strings.  The calls to
    [logger.log] only append to the event log and are left out here. *)
Record Task := {
  priority : Z;
  action : string;
  params : gmap string string
}.

#[global] Instance Task_eq_dec : EqDecision Task.
Proof. solve_decision. Defined.

(** An entry of [self.queue]: the tuple [(task["priority"], task)]. *)
Abbreviation item := (Z * Task)%type.

(** [a < b] on two such tuples, as CPython compares tuples: the first
    position where the elements differ (by [==]) decides, with [<] on that
    pair; two dicts have no [<]. *)
Definition item_lt (a b : item) : result bool :=
  if decide (a.1 = b.1) then
    if decide (a.2 = b.2) then Ok false
    else Raise (TypeError
           "'<' not supported between instances of 'dict' and 'dict'")
  else Ok (a.1 <? b.1).

(** *** CPython's [heapq] (Lib/heapq.py), on a list mutated in place.
    Every function returns the list as the call leaves it, also when the
    comparison raises half way. *)

(** The [while pos > startpos] loop of [_siftdown].  Each round moves [pos]
    to [(pos - 1) >> 1 < pos], so [pos] rounds are enough: the loop is
    entered with [fuel = pos]. *)
Fixpoint _siftdown_loop (fuel : nat) (heap : list item) (startpos pos : nat)
    (newitem : item) : list item * result unit :=
  match fuel with
  | O => (<[pos := newitem]> heap, Ok tt)
  | S fuel' =>
      if (startpos <? pos)%nat then
        let parentpos := ((pos - 1) / 2)%nat in
        match heap !! parentpos with
        | Some parent =>
            match item_lt newitem parent with
            | Ok true =>
                _siftdown_loop fuel' (<[pos := parent]> heap)
                               startpos parentpos newitem
            | Ok false => (<[pos := newitem]> heap, Ok tt)
            | Raise e => (heap, Raise e)
            end
        | None => (heap, Raise (IndexError "list index out of range"))
        end
      else (<[pos := newitem]> heap, Ok tt)
  end.

Definition _siftdown (heap : list item) (startpos pos : nat)
  : list item * result unit :=
  match heap !! pos with
  | Some newitem => _siftdown_loop pos heap startpos pos newitem
  | None => (heap, Raise (IndexError "list index out of range"))
  end.

(** The [while childpos < endpos] loop of [_siftup]; it returns the position
    of the leaf left empty.  [pos] grows at every round, so [endpos] rounds
    are enough. *)
Fixpoint _siftup_loop (fuel : nat) (heap : list item) (endpos pos : nat)
  : list item * result nat :=
  match fuel with
  | O => (heap, Ok pos)
  | S fuel' =>
      let childpos := (2 * pos + 1)%nat in
      if (childpos <? endpos)%nat then
        let rightpos := (childpos + 1)%nat in
        let smaller : result nat :=
          if (rightpos <? endpos)%nat then
            match heap !! childpos, heap !! rightpos with
            | Some c, Some r =>
                b <- item_lt c r ;;
                Ok (if negb b then rightpos else childpos)
            | _, _ => Raise (IndexError "list index out of range")
            end
          else Ok childpos in
        match smaller with
        | Ok childpos' =>
            match heap !! childpos' with
            | Some c => _siftup_loop fuel' (<[pos := c]> heap) endpos childpos'
            | None => (heap, Raise (IndexError "list index out of range"))
            end
        | Raise e => (heap, Raise e)
        end
      else (heap, Ok pos)
  end.

Definition _siftup (heap : list item) (pos : nat) : list item * result unit :=
  let endpos := length heap in
  let startpos := pos in
  match heap !! pos with
  | Some newitem =>
      match _siftup_loop endpos heap endpos pos with
      | (heap', Ok pos') =>
          let heap'' := <[pos' := newitem]> heap' in
          _siftdown heap'' startpos pos'
      | (heap', Raise e) => (heap', Raise e)
      end
  | None => (heap, Raise (IndexError "list index out of range"))
  end.

(** [heapq.heappush(heap, item)] *)
Definition heappush (heap : list item) (x : item) : list item * result unit :=
  let heap' := heap ++ [x] in
  _siftdown heap' 0 (length heap' - 1).

(** [heapq.heappop(heap)] *)
Definition heappop (heap : list item) : list item * result item :=
  match last heap with
  | None => (heap, Raise (IndexError "pop from empty list"))
  | Some lastelt =>
      let heap' := removelast heap in
      match heap' with
      | returnitem :: _ =>
          match _siftup (<[0%nat := lastelt]> heap') 0 with
          | (h, Ok _) => (h, Ok returnitem)
          | (h, Raise e) => (h, Raise e)
          end
      | [] => (heap', Ok lastelt)
      end
  end.

(** *** [class TaskManager] *)

Record TaskManager := { queue : list item }.

(** [TaskManager()] *)
Definition init : TaskManager := {| queue := [] |}.

(** [add_task(self, action, params=None, priority=5)] *)
Definition add_task (self : TaskManager) (action_ : string)
    (params_ : option (gmap string string)) (priority_ : Z)
  : TaskManager * result unit :=
  let task := {| priority := - priority_;  (* Negate for min-heap *)
                 action := action_;
                 params := default ∅ params_ |} in
  let '(q, r) := heappush (queue self) (priority task, task) in
  ({| queue := q |}, r).

(** [next_task(self)] *)
Definition next_task (self : TaskManager)
  : TaskManager * result (option Task) :=
  match queue self with
  | [] => (self, Ok None)
  | _ =>
      match heappop (queue self) with
      | (q, Ok (_, task)) => ({| queue := q |}, Ok (Some task))
      | (q, Raise e) => ({| queue := q |}, Raise e)
      end
  end.

(** [has_tasks(self)] *)
Definition has_tasks (self : TaskManager) : bool :=
  (0 <? length (queue self))%nat.

(** The priority the caller gave a queued task ([add_task] stores its
    negation). *)
Definition given_priority (t : Task) : Z := - priority t.

(** [add_task(action, params, priority)] for each triple in turn, up to the
    first call that raises. *)
Fixpoint add_tasks (l : list (string * option (gmap string string) * Z))
    (self : TaskManager) : TaskManager * result unit :=
  match l with
  | [] => (self, Ok tt)
  | (a, ps, p) :: l' =>
      match add_task self a ps p with
      | (self', Ok _) => add_tasks l' self'
      | (self', Raise e) => (self', Raise e)
      end
  end.

(** The caller's priority of each task a run of [next_task] calls returned
    (None for a call that returned None or raised). *)
Definition popped_priorities (rs : list (result (option Task)))
  : list (option Z) :=
  map (fun r => match r with
                | Ok (Some t) => Some (given_priority t)
                | _ => None
                end) rs.

(** [n] calls of [next_task] in a row: what each returned. *)
Fixpoint next_tasks (n : nat) (self : TaskManager)
  : list (result (option Task)) * TaskManager :=
  match n with
  | O => ([], self)
  | S n' =>
      let '(self', r) := next_task self in
      let '(rs, self'') := next_tasks n' self' in
      (r :: rs, self'')
  end.

(** *** The heap invariant *)

(** The invariant [heapq] documents, on the keys of the queue's tuples:
    [heap[(i - 1) >> 1] <= heap[i]] for every index [i > 0]. *)
Definition heap_ok (h : list item) : Prop :=
  forall i c p, (0 < i)%nat ->
    h !! i = Some c -> h !! ((i - 1) / 2)%nat = Some p -> p.1 <= c.1.

(** The state of [_siftdown] between two rounds, seen with [newitem] written
    at [pos]: the invariant holds on every edge but the one above [pos], and
    the parent of [pos] is not above the children of [pos]. *)
Definition down_inv (hs : list item) (pos : nat) : Prop :=
  (forall i c p, (0 < i)%nat -> i <> pos ->
     hs !! i = Some c -> hs !! ((i - 1) / 2)%nat = Some p -> p.1 <= c.1) /\
  (forall i c g, (0 < pos)%nat -> (0 < i)%nat -> ((i - 1) / 2)%nat = pos ->
     hs !! i = Some c -> hs !! ((pos - 1) / 2)%nat = Some g -> g.1 <= c.1).

(** The state of the loop of [_siftup] between two rounds: the slot at [pos]
    is free; the invariant holds on every edge that does not touch [pos],
    and the parent of [pos] is not above the children of [pos]. *)
Definition up_inv (h : list item) (pos : nat) : Prop :=
  (forall i c p, (0 < i)%nat -> i <> pos -> ((i - 1) / 2)%nat <> pos ->
     h !! i = Some c -> h !! ((i - 1) / 2)%nat = Some p -> p.1 <= c.1) /\
  (forall i c g, (0 < pos)%nat -> (0 < i)%nat -> ((i - 1) / 2)%nat = pos ->
     h !! i = Some c -> h !! ((pos - 1) / 2)%nat = Some g -> g.1 <= c.1).

(** The tuple [add_task(action, params, priority)] pushes. *)
Definition item_of (t : string * option (gmap string string) * Z) : item :=
  (- t.2,
   {| priority := - t.2; action := t.1.1; params := default ∅ t.1.2 |}).

(** *** [with_retry(task_fn, retries=2, delay=1)] *)

(** What one call of [task_fn()] does: it returns a value, or raises an
    exception with the message [str(e)]. *)
Inductive attempt (A : Type) :=
| Returned (a : A)
| Failed (err : string).
Arguments Returned {A} a.
Arguments Failed {A} err.

(** How a call of [with_retry] ends: with the value of [task_fn()], by
    falling off the loop (Python's None), or by re-raising. *)
Inductive retry_result (A : Type) :=
| RetryValue (a : A)
| RetryNone
| RetryRaised (err : string).
Arguments RetryValue {A} a.
Arguments RetryNone {A}.
Arguments RetryRaised {A} err.

(** What a call leaves behind: how often [task_fn] was called, how often
    [time.sleep(delay)] was, and the event log. *)
Record RetryTrace := {
  calls : nat;
  sleeps : nat;
  retry_events : Logger.LogStore
}.

Definition logger : Logger.RagisLogger :=
  {| Logger.log_path := "ragis_events.log"; Logger.pii_mask_fields := [] |}.

(** The [for attempt in range(retries + 1)] loop.  [task_fn] is given as
    what its [n]-th call does (a callable may answer differently each
    time); [now] is the clock the logger reads. *)
Fixpoint with_retry_loop {A} (now : string) (task_fn : nat -> attempt A)
    (retries : Z) (attempts : list nat) (tr : RetryTrace)
  : retry_result A * RetryTrace :=
  match attempts with
  | [] => (RetryNone, tr)
  | attempt_ :: rest =>
      match task_fn (calls tr) with
      | Returned a =>
          (RetryValue a,
           {| calls := S (calls tr); sleeps := sleeps tr;
              retry_events := retry_events tr |})
      | Failed err =>
          let ev1 :=
            Logger.log logger now "task_retry_error"
              [("attempt", VInt (Z.of_nat attempt_ + 1)); ("error", VStr err)]
              (retry_events tr) in
          if Z.of_nat attempt_ <? retries then
            with_retry_loop now task_fn retries rest
              {| calls := S (calls tr); sleeps := S (sleeps tr);
                 retry_events := ev1 |}
          else
            (RetryRaised err,
             {| calls := S (calls tr); sleeps := sleeps tr;
                retry_events :=
                  Logger.log logger now "task_failed"
                    [("error", VStr err); ("retries", VInt (retries + 1))]
                    ev1 |})
      end
  end.

Definition with_retry {A} (now : string) (task_fn : nat -> attempt A)
    (retries : Z) (tr : RetryTrace) : retry_result A * RetryTrace :=
  with_retry_loop now task_fn retries (seq 0 (Z.to_nat (retries + 1))) tr.

(** A trace that starts now, on the given log. *)
Definition fresh_trace (logs : Logger.LogStore) : RetryTrace :=
  {| calls := 0; sleeps := 0; retry_events := logs |}.

End TaskQueue.

(* ===================================================================== *)
(** ** secure_vault.py                                                    *)
(* ===================================================================== *)

Module Vault.

(** An element of an entry's ["archive"] list. *)
Record ArchiveItem := {
  value : string;
  timestamp : string
}.

(** A vault entry: a dict whose keys may each be absent. *)
Record SecretEntry := {
  current : option string;
  last_update : option string;
  archive : option (list ArchiveItem);
  deleted : option bool;
  deleted_date : option string
}.

(** The decrypted vault: secret name to entry. *)
Abbreviation Secrets := (gmap string SecretEntry).

(** The libraries under the vault: [hashlib.pbkdf2_hmac] (SHA-256, 200000
    rounds, 32 bytes, then url-safe base64), [cryptography.fernet] and
    [json].  [fernet_encrypt] takes the random IV and the time stamp Fernet
    draws as its [string] argument; [fernet_decrypt] answers [None] where
    Fernet raises [InvalidToken]; [json_loads] answers [None] where
    [json.loads] raises. *)
Class Crypto := {
  Key : Type;
  Bytes : Type;
  Token : Type;
  pbkdf2_hmac : string -> string -> Key;
  fernet_encrypt : Key -> string -> Bytes -> Token;
  fernet_decrypt : Key -> Token -> option Bytes;
  json_dumps : Secrets -> Bytes;
  json_loads : Bytes -> option Secrets
}.

(** What the vault needs of them: decryption inverts encryption under the
    same key and rejects a token made under another key, distinct PINs give
    distinct keys under one salt, and JSON round-trips a vault. *)
Class CryptoLaws (C : Crypto) : Prop := {
  decrypt_encrypt : forall k iv m,
    fernet_decrypt k (fernet_encrypt k iv m) = Some m;
  decrypt_other_key : forall k k' iv m,
    k <> k' -> fernet_decrypt k' (fernet_encrypt k iv m) = None;
  pbkdf2_inj : forall pin pin' salt,
    pbkdf2_hmac pin salt = pbkdf2_hmac pin' salt -> pin = pin';
  loads_dumps : forall s, json_loads (json_dumps s) = Some s
}.

Section VaultOps.

Context {C : Crypto}.

(** The two files the module owns: [VAULT_SALT_FILE] and [VAULT_FILE].  The
    calls to [logger.log] and [print] touch neither and are left out. *)
Record Disk := {
  salt_file : option string;
  vault_file : option Token
}.

(** What one call reads from its environment: [os.urandom(16)] (read only
    when the salt file is missing), Fernet's IV and [datetime.now()]. *)
Record Env := {
  urandom : string;
  iv : string;
  now : string
}.

(** [get_salt()] *)
Definition get_salt (e : Env) (d : Disk) : string * Disk :=
  match salt_file d with
  | Some salt => (salt, d)
  | None =>
      let new_salt := urandom e in
      (new_salt, {| salt_file := Some new_salt; vault_file := vault_file d |})
  end.

(** [get_fernet(pin)]: the [Fernet] object is its key. *)
Definition get_fernet (e : Env) (pin : string) (d : Disk) : Key * Disk :=
  let '(salt, d') := get_salt e d in
  (pbkdf2_hmac pin salt, d').

(** [load_vault(pin)]: [Some] of a dict, or [None] for Python's [None]. *)
Definition load_vault (e : Env) (pin : string) (d : Disk)
  : option Secrets * Disk :=
  let '(f, d') := get_fernet e pin d in
  match vault_file d' with
  | None => (Some ∅, d')
  | Some enc =>
      match fernet_decrypt f enc with
      | Some dec => (json_loads dec, d')
      | None => (None, d')
      end
  end.

(** [save_vault(secrets, pin)] *)
Definition save_vault (e : Env) (secrets : Secrets) (pin : string) (d : Disk)
  : Disk :=
  let '(f, d') := get_fernet e pin d in
  let enc := fernet_encrypt f (iv e) (json_dumps secrets) in
  {| salt_file := salt_file d'; vault_file := Some enc |}.

(** Truth value of an entry: a dict is true when it has a key. *)
Definition entry_truthy (en : SecretEntry) : bool :=
  bool_decide (is_Some (current en)) || bool_decide (is_Some (last_update en))
  || bool_decide (is_Some (archive en)) || bool_decide (is_Some (deleted en))
  || bool_decide (is_Some (deleted_date en)).

(** [load_vault(pin) or {}] *)
Definition or_empty (o : option Secrets) : Secrets := default ∅ o.

(** The entry [set_secret] stores, from what [secrets.get(name)] returned. *)
Definition set_entry (entry : option SecretEntry) (value_ timestamp_ : string)
  : SecretEntry :=
  match entry with
  | Some en =>
      match entry_truthy en, current en with
      | true, Some cur =>
          (* Move current value to archive before updating *)
          let arch := default [] (archive en) in
          {| current := Some value_;
             last_update := Some timestamp_;
             archive := Some ({| value := cur;
                                 timestamp := default timestamp_ (last_update en) |}
                              :: arch);
             deleted := deleted en;
             deleted_date := deleted_date en |}
      | _, _ =>
          {| current := Some value_; last_update := Some timestamp_;
             archive := Some []; deleted := None; deleted_date := None |}
      end
  | None =>
      {| current := Some value_; last_update := Some timestamp_;
         archive := Some []; deleted := None; deleted_date := None |}
  end.

(** [set_secret(name, value, pin)]; it returns nothing. *)
Definition set_secret (e : Env) (name value_ pin : string) (d : Disk) : Disk :=
  if decide (name = "") then d
  else if decide (value_ = "") then d
  else
    let '(loaded, d1) := load_vault e pin d in
    let secrets := or_empty loaded in
    let timestamp_ := now e in
    let entry := set_entry (secrets !! name) value_ timestamp_ in
    save_vault e (<[name := entry]> secrets) pin d1.

(** [get_secret(name, pin, archived=False, version=0)] *)
Definition get_secret (e : Env) (name pin : string) (archived : bool)
    (version : Z) (d : Disk) : result (option string) * Disk :=
  let '(loaded, d1) := load_vault e pin d in
  let secrets := or_empty loaded in
  match secrets !! name with
  | None => (Ok None, d1)
  | Some entry =>
      if negb (entry_truthy entry) then (Ok None, d1)
      else if negb archived then (Ok (current entry), d1)
      else
        match archive entry with
        | Some arch =>
            if Z.of_nat (length arch) >? version
            then (it <- list_index arch version ;; Ok (Some (value it)), d1)
            else (Ok None, d1)
        | None => (Ok None, d1)
        end
  end.

(** [get_secret_archive_list(name, pin)] *)
Definition get_secret_archive_list (e : Env) (name pin : string) (d : Disk)
  : list ArchiveItem * Disk :=
  let '(loaded, d1) := load_vault e pin d in
  match or_empty loaded !! name with
  | Some entry =>
      if entry_truthy entry then (default [] (archive entry), d1) else ([], d1)
  | None => ([], d1)
  end.

(** [restore_secret(name, pin, version=0)] *)
Definition restore_secret (e : Env) (name pin : string) (version : Z)
    (d : Disk) : result bool * Disk :=
  let '(loaded, d1) := load_vault e pin d in
  let secrets := or_empty loaded in
  match secrets !! name with
  | None => (Ok false, d1)
  | Some entry =>
      match entry_truthy entry, archive entry with
      | true, Some arch =>
          if Z.of_nat (length arch) <=? version then (Ok false, d1)
          else
            let timestamp_ := now e in
            (* Swap archive[version] to 'current', move current to archive[0] *)
            match list_pop arch version with
            | Raise ex => (Raise ex, d1)
            | Ok (archive_entry, rest) =>
                let arch' :=
                  match current entry with
                  | Some cur =>
                      {| value := cur;
                         timestamp := default timestamp_ (last_update entry) |}
                      :: rest
                  | None => rest
                  end in
                let entry' :=
                  {| current := Some (value archive_entry);
                     last_update := Some timestamp_;
                     archive := Some arch';
                     deleted := deleted entry;
                     deleted_date := deleted_date entry |} in
                (Ok true, save_vault e (<[name := entry']> secrets) pin d1)
            end
      | _, _ => (Ok false, d1)
      end
  end.

(** [delete_secret(name, pin, erase_archive=False)] *)
Definition delete_secret (e : Env) (name pin : string) (erase_archive : bool)
    (d : Disk) : bool * Disk :=
  let '(loaded, d1) := load_vault e pin d in
  let secrets := or_empty loaded in
  match secrets !! name with
  | Some entry =>
      let secrets' :=
        if erase_archive then delete name secrets
        else
          (* Just mark as deleted but retain archive for possible restore *)
          <[name := {| current := current entry;
                       last_update := last_update entry;
                       archive := archive entry;
                       deleted := Some true;
                       deleted_date := Some (now e) |}]> secrets in
      (true, save_vault e secrets' pin d1)
  | None => (false, d1)
  end.

(** The test of [change_pin] on the new PIN: numeric and 5 to 6 long. *)
Definition valid_new_pin (new_pin : string) : bool :=
  isdigit new_pin
  && ((5 <=? String.length new_pin) && (String.length new_pin <=? 6))%nat.

(** [change_pin(old_pin, new_pin)] *)
Definition change_pin (e : Env) (old_pin new_pin : string) (d : Disk)
  : bool * Disk :=
  if negb (valid_new_pin new_pin) then (false, d)
  else
    let '(loaded, d1) := load_vault e old_pin d in
    match loaded with
    | None => (false, d1)
    | Some secrets => (true, save_vault e secrets new_pin d1)
    end.

(** What [get_secret] answers, as a function of what [secrets.get(name)]
    gave it ([get_secret] itself also loads the vault). *)
Definition entry_answer (found : option SecretEntry) (archived : bool)
    (version : Z) : result (option string) :=
  match found with
  | None => Ok None
  | Some entry =>
      if negb (entry_truthy entry) then Ok None
      else if negb archived then Ok (current entry)
      else
        match archive entry with
        | Some arch =>
            if Z.of_nat (length arch) >? version
            then (it <- list_index arch version ;; Ok (Some (value it)))
            else Ok None
        | None => Ok None
        end
  end.

(** The salt in use after any call: the stored one, else the fresh one. *)
Definition salt_of (e : Env) (d : Disk) : string :=
  default (urandom e) (salt_file d).

(** The disk once [get_salt] has run: the salt file exists. *)
Definition salted (e : Env) (d : Disk) : Disk :=
  {| salt_file := Some (salt_of e d); vault_file := vault_file d |}.

End VaultOps.

(** A symbolic instance of the libraries: a key is the (PIN, salt) pair it
    was derived from, a token records its key, IV and plaintext, and the
    serialised vault is the vault. *)
Definition SymbolicCrypto : Crypto :=
  {| Key := string * string;
     Bytes := Secrets;
     Token := (string * string) * string * Secrets;
     pbkdf2_hmac := fun pin salt => (pin, salt);
     fernet_encrypt := fun k iv_ m => (k, iv_, m);
     fernet_decrypt := fun k t => if decide (t.1.1 = k) then Some t.2 else None;
     json_dumps := fun s => s;
     json_loads := fun b => Some b |}.

(** A first-use scenario over the symbolic instance: no file on disk, then
    [set_secret("A", "v1", "12345")] and [set_secret("A", "v2", "12345")]. *)
Definition env0 : Env :=
  {| urandom := "0123456789abcdef"; iv := "iv0";
     now := "2025-01-01T00:00:00" |}.

Definition no_files : @Disk SymbolicCrypto :=
  {| salt_file := None; vault_file := None |}.

Definition disk_v1_v2 : @Disk SymbolicCrypto :=
  set_secret env0 "A" "v2" "12345" (set_secret env0 "A" "v1" "12345" no_files).

End Vault.

(* ===================================================================== *)
(** ** agent_tools/files.py and agent_tools/shell.py                      *)
(* ===================================================================== *)

Module Handlers.

Import Logger.

(** "\n" *)
Definition nl : string := String (ascii_of_nat 10) EmptyString.

Definition ascii_upper (c : ascii) : ascii :=
  let n := nat_of_ascii c in
  if ((97 <=? n) && (n <=? 122))%nat then ascii_of_nat (n - 32) else c.

(** [s.upper()] *)
Fixpoint upper (s : string) : string :=
  match s with
  | EmptyString => EmptyString
  | String c s' => String (ascii_upper c) (upper s')
  end.

(** *** The world outside the session *)

(** A call of [subprocess.run]: an argument vector, or a command line given
    to the shell ([shell=True]); the working directory when one is passed;
    the timeout in seconds. *)
Inductive Invocation :=
| RunArgv (argv : list string) (cwd : option string) (timeout : nat)
| RunShell (cmdline : string) (cwd : option string) (timeout : nat).

(** What [subprocess.run] gives back: a completed process with its captured
    output, or an exception ([TimeoutExpired], [FileNotFoundError], ...)
    with its message. *)
Inductive ProcOutcome :=
| Completed (stdout stderr : string)
| RunFailed (err : string).

(** Regular files by absolute path, the processes started so far, and the
    event log files. *)
Record World := {
  fs : gmap string string;
  procs : list Invocation;
  events : LogStore
}.

(** What one handler call reads from its environment. *)
Record Env := {
  (** [os.path.expanduser("~")] *)
  user_home : string;
  (** [os.path.abspath(os.path.expanduser(p))] *)
  abspath : string -> string;
  (** [RagisLogger.utc_now_iso()] *)
  utc_now_iso : string;
  (** [get_timestamp()] *)
  get_timestamp : string;
  (** the name [tempfile.NamedTemporaryFile] picks *)
  mkstemp : string;
  (** [difflib.unified_diff] of two file contents, joined: from-name, to-name,
      old text, new text *)
  unified_diff : string -> string -> string -> string -> string;
  (** the error, if any, with which [open(path, "w")] fails *)
  open_w_error : string -> option string;
  (** the operating system running a process: its outcome and what it does
      to the files *)
  subprocess_run : Invocation -> gmap string string
                   -> ProcOutcome * gmap string string
}.

(** The payload of ['pending_file_change']: the tuple
    [(abs_path, content, op_type, backup_path, temp_path)]. *)
Record FileChange := {
  fc_abs_path : string;
  fc_content : string;
  fc_op_type : string;
  fc_backup_path : option string;
  fc_temp_path : string
}.

(** The payload of ['pending_npm_install']: [cwd], or [(package, cwd)]. *)
Inductive NpmPending :=
| NpmCwd (cwd : string)
| NpmPackage (package cwd : string).

(** [session_state]: the dict is used as a record of named slots, one per
    key the handlers read or write; [None] is an absent key, and an absent
    ["global_approval"] reads as [False]. *)
Record SessionState := {
  pending_file_change : option FileChange;
  pending_shell_cmd : option (string * string);
  pending_pip_install : option string;
  pending_npm_install : option NpmPending;
  global_approval : bool
}.

Definition set_pending_file_change (v : option FileChange) (ss : SessionState)
  : SessionState :=
  {| pending_file_change := v;
     pending_shell_cmd := pending_shell_cmd ss;
     pending_pip_install := pending_pip_install ss;
     pending_npm_install := pending_npm_install ss;
     global_approval := global_approval ss |}.

Definition set_pending_shell_cmd (v : option (string * string))
    (ss : SessionState) : SessionState :=
  {| pending_file_change := pending_file_change ss;
     pending_shell_cmd := v;
     pending_pip_install := pending_pip_install ss;
     pending_npm_install := pending_npm_install ss;
     global_approval := global_approval ss |}.



Definition set_fs (f : gmap string string) (w : World) : World :=
  {| fs := f; procs := procs w; events := events w |}.

(** [logger.log(ev, d)] through the module's logger. *)
Definition wlog (lg : RagisLogger) (e : Env) (ev : string)
    (d : list (string * pyval)) (w : World) : World :=
  {| fs := fs w; procs := procs w;
     events := log lg (utc_now_iso e) ev d (events w) |}.

(** [subprocess.run(...)]: the process is started, and recorded. *)
Definition run_proc (e : Env) (inv : Invocation) (w : World)
  : ProcOutcome * World :=
  let '(out, f) := subprocess_run e inv (fs w) in
  (out, {| fs := f; procs := procs w ++ [inv]; events := events w |}).

(** [str(e)] of the [FileNotFoundError] raised on a missing path. *)
Definition enoent (p : string) : string :=
  "[Errno 2] No such file or directory: '" +:+ p +:+ "'".

(** *** agent_tools/files.py *)

Module Files.

Definition logger : RagisLogger :=
  {| log_path := "ragis_events.log";
     pii_mask_fields := ["content"; "abs_path"; "temp_path"; "backup_path"] |}.

(** [backup_file(abs_path)] *)
Definition backup_file (e : Env) (abs_path : string) (w : World)
  : option string * World :=
  match fs w !! abs_path with
  | None => (None, w)
  | Some c =>
      let bpath := abs_path +:+ ".bak." +:+ get_timestamp e in
      let w1 := set_fs (<[bpath := c]> (fs w)) w in
      (Some bpath,
       wlog logger e "backup_file"
            [("orig", VStr abs_path); ("backup", VStr bpath)] w1)
  end.

(** [show_diff(file1, file2)] *)
Definition show_diff (e : Env) (file1 file2 : string) (w : World)
  : string * World :=
  let fail (p : string) :=
    ("Diff error: " +:+ enoent p,
     wlog logger e "diff_error"
          [("file1", VStr file1); ("file2", VStr file2);
           ("error", VStr (enoent p))] w) in
  match fs w !! file1, fs w !! file2 with
  | Some lines1, Some lines2 => (unified_diff e file1 file2 lines1 lines2, w)
  | None, _ => fail file1
  | Some _, None => fail file2
  end.

Definition affirm : list string :=
  ["yes"; "ok"; "allow"; "approve"; "go ahead"; "sure"; "yep"; "accepted";
   "affirm"; "green light"; "do it"; "confirmed"].

(** [is_affirmative(msg)] *)
Definition is_affirmative (msg : string) : bool :=
  let msg_low := lower (strip msg) in
  any_in affirm msg_low.

(** The arguments of [edit_or_create_file]: ["path"], and ["content"] when
    given. *)
Record Args := {
  path : string;
  content : option string
}.

(** [try: os.remove(temp_path) except ...: logger.log(...)] *)
Definition remove_temp (e : Env) (temp_path : string) (w : World) : World :=
  match fs w !! temp_path with
  | Some _ => set_fs (delete temp_path (fs w)) w
  | None =>
      wlog logger e "tempfile_remove_fail"
           [("file", VStr temp_path); ("error", VStr (enoent temp_path))] w
  end.

(** [edit_or_create_file(args, session_state)] *)
Definition edit_or_create_file (e : Env) (args : Args) (ss : SessionState)
    (w : World) : string * SessionState * World :=
  let rel_path := path args in
  let content_ := default "" (content args) in
  let abs_path := abspath e rel_path in
  if negb (startswith abs_path (user_home e)) then
    ("Permission denied: Only files under your user directory can be edited/created.",
     ss, w)
  else
    let op_type :=
      if bool_decide (is_Some (fs w !! abs_path)) then "edit" else "create" in
    let '(backup_path, w1) :=
      if bool_decide (is_Some (fs w !! abs_path))
      then backup_file e abs_path w else (None, w) in
    let temp_path := mkstemp e in
    let w2 := set_fs (<[temp_path := content_]> (fs w1)) w1 in
    let '(diff_text, w3) :=
      if bool_decide (backup_path <> None /\ backup_path <> Some "")
      then show_diff e (default "" backup_path) temp_path w2
      else if bool_decide (is_Some (fs w2 !! abs_path))
      then show_diff e abs_path temp_path w2
      else ("", w2) in
    let summary :=
      if bool_decide (diff_text <> "")
      then "Diff preview:" +:+ nl +:+ take_str 2000 diff_text
      else "(No diff preview available.)" in
    let ss' :=
      set_pending_file_change
        (Some {| fc_abs_path := abs_path; fc_content := content_;
                 fc_op_type := op_type; fc_backup_path := backup_path;
                 fc_temp_path := temp_path |}) ss in
    let snippet :=
      if (String.length content_ <? 80)%nat then content_
      else take_str 77 content_ +:+ "..." in
    let w4 :=
      wlog logger e "prepare_edit_or_create"
           [("action", VStr (upper op_type));
            ("abs_path", VStr abs_path);
            ("backup_path", opt_val backup_path);
            ("temp_path", VStr temp_path);
            ("diff_text", VStr (take_str 500 diff_text))] w3 in
    ("I'd like to " +:+ op_type +:+ " the file:" +:+ nl +:+ abs_path +:+ nl
     +:+ "Here is a snippet: '" +:+ snippet +:+ "'" +:+ nl +:+ summary +:+ nl
     +:+ "Is that OK? (Reply yes/ok/approve or similar to allow, or no to cancel.)",
     ss', w4).

(** [handle_pending_file_change(user_message, session_state)] *)
Definition handle_pending_file_change (e : Env) (user_message : string)
    (ss : SessionState) (w : World) : option string * SessionState * World :=
  match pending_file_change ss with
  | Some pc =>
      let abs_path := fc_abs_path pc in
      let content_ := fc_content pc in
      let op_type := fc_op_type pc in
      let backup_path := fc_backup_path pc in
      let temp_path := fc_temp_path pc in
      let auto_approve := global_approval ss in
      if auto_approve || is_affirmative user_message then
        match open_w_error e abs_path with
        | None =>
            let w1 := set_fs (<[abs_path := content_]> (fs w)) w in
            let w2 :=
              wlog logger e "write_file"
                   [("action", VStr "WRITE_FILE");
                    ("abs_path", VStr abs_path);
                    ("summary",
                     VStr ("User approved; " +:+ op_type +:+ " (backup in "
                           +:+ (if bool_decide (backup_path <> None
                                                /\ backup_path <> Some "")
                                then default "" backup_path else "N/A")
                           +:+ ")"))] w1 in
            let ss' := set_pending_file_change None ss in
            let w3 := remove_temp e temp_path w2 in
            (Some ("File '" +:+ abs_path +:+ "' " +:+ op_type
                   +:+ "d successfully. (Backup: " +:+ str_opt backup_path
                   +:+ ")"),
             ss', w3)
        | Some err =>
            let ss' := set_pending_file_change None ss in
            let w1 := remove_temp e temp_path w in
            let w2 :=
              wlog logger e "write_file_fail"
                   [("action", VStr "WRITE_FILE_FAIL");
                    ("abs_path", VStr abs_path);
                    ("error", VStr err)] w1 in
            (Some ("Error editing/creating file: " +:+ err), ss', w2)
        end
      else
        let ss' := set_pending_file_change None ss in
        let w1 := remove_temp e temp_path w in
        let w2 :=
          wlog logger e "edit_create_cancel"
               [("abs_path", VStr abs_path); ("op_type", VStr op_type)] w1 in
        (Some "File edit/create was not approved. Cancelling.", ss', w2)
  | None => (None, ss, w)
  end.

(** [read_any_file(args, session_state)]; the file system holds regular
    files that can be read, so [open] fails on a missing path only. *)
Definition read_any_file (e : Env) (args : Args) (ss : SessionState)
    (w : World) : string * SessionState * World :=
  let rel_path := path args in
  let abs_path := abspath e rel_path in
  if negb (startswith abs_path (user_home e)) then
    ("Permission denied: Only files under your user directory can be read.",
     ss, w)
  else
    match fs w !! abs_path with
    | Some content_ =>
        (content_, ss,
         wlog logger e "read_file"
              [("action", VStr "READ_FILE"); ("abs_path", VStr abs_path);
               ("summary", VStr "Read by agent.")] w)
    | None =>
        ("Error: " +:+ enoent abs_path, ss,
         wlog logger e "read_file_fail"
              [("action", VStr "READ_FILE_FAIL"); ("abs_path", VStr abs_path);
               ("error", VStr (enoent abs_path))] w)
    end.

End Files.

(** *** agent_tools/shell.py *)

Module Shell.


Definition logger : RagisLogger :=
  {| log_path := "ragis_events.log";
     pii_mask_fields := ["cmd"; "cwd"; "package"] |}.

Definition affirm : list string :=
  ["yes"; "ok"; "allow"; "approve"; "go ahead"].

(** [is_affirmative(msg)] *)
Definition is_affirmative (msg : string) : bool :=
  any_in affirm (lower msg).

Definition safe_cmds : list string :=
  ["ls"; "dir"; "npm install"; "npm run"; "npm build"; "pip install";
   "pip list"; "python"; "pytest"; "make"; "echo"; "pip freeze"; "npm start";
   "node"; "which"; "where"].

Definition blocklist : list string :=
  ["rm -rf"; "del /f"; "shutdown"; "format"; "dd "; "mkfs"; "poweroff"].

(** [any(bad in cmd.lower() for bad in blocklist)] *)
Definition is_blocked (cmd : string) : bool :=
  existsb (fun bad => contains bad (lower cmd)) blocklist.

(** [any(cmd.lower().startswith(prefix) for prefix in safe_cmds)] *)
Definition is_safe (cmd : string) : bool :=
  existsb (fun prefix => startswith (lower cmd) prefix) safe_cmds.

(** The [subprocess.run] call both [run_shell_command] and
    [handle_pending_shell_cmd] make for [cmd] in [cwd]. *)
Definition shell_invocation (cmd cwd : string) : Invocation :=
  if startswith cmd "npm install" then RunArgv (split cmd) (Some cwd) 60
  else if startswith cmd "pip install" then RunArgv (split cmd) (Some cwd) 60
  else RunShell cmd (Some cwd) 60.

(** The arguments of [run_shell_command]: ["cmd"] and ["cwd"], each
    optional. *)
Record Args := {
  cmd : option string;
  cwd : option string
}.

(** [run_shell_command(args, session_state)] *)
Definition run_shell_command (e : Env) (args : Args) (ss : SessionState)
    (w : World) : string * SessionState * World :=
  let cmd_ := default "" (cmd args) in
  let cwd_ := default (user_home e) (cwd args) in
  if is_blocked cmd_ then
    ("[BLOCKED] That command is not permitted for safety.", ss,
     wlog logger e "blocked_shell_command"
          [("cmd", VStr cmd_); ("cwd", VStr cwd_)] w)
  else if negb (is_safe cmd_) then
    ("Agent wants to run shell command:" +:+ nl +:+ "`" +:+ cmd_ +:+ "` in `"
     +:+ cwd_ +:+ "` â€” ok to run? (yes/ok/approve)",
     set_pending_shell_cmd (Some (cmd_, cwd_)) ss, w)
  else
    match run_proc e (shell_invocation cmd_ cwd_) w with
    | (Completed stdout stderr, w1) =>
        let w2 :=
          wlog logger e "run_shell"
               [("action", VStr "RUN_SHELL"); ("cwd", VStr cwd_);
                ("cmd", VStr cmd_)] w1 in
        let output := take_str 2200 stdout +:+ nl +:+ take_str 600 stderr in
        ("Shell output (clipped):" +:+ nl +:+ output, ss, w2)
    | (RunFailed err, w1) =>
        ("Shell command error: " +:+ err, ss,
         wlog logger e "run_shell_fail"
              [("action", VStr "RUN_SHELL_FAIL"); ("cwd", VStr cwd_);
               ("cmd", VStr cmd_); ("error", VStr err)] w1)
    end.

(** [handle_pending_shell_cmd(user_message, session_state)] *)
Definition handle_pending_shell_cmd (e : Env) (user_message : string)
    (ss : SessionState) (w : World) : option string * SessionState * World :=
  match pending_shell_cmd ss with
  | Some (cmd_, cwd_) =>
      let ss' := set_pending_shell_cmd None ss in
      let auto_approve := global_approval ss' in
      if auto_approve || is_affirmative user_message then
        match run_proc e (shell_invocation cmd_ cwd_) w with
        | (Completed stdout stderr, w1) =>
            let w2 :=
              wlog logger e "run_shell"
                   [("action", VStr "RUN_SHELL"); ("cwd", VStr cwd_);
                    ("cmd", VStr cmd_)] w1 in
            let output := take_str 2000 stdout +:+ nl +:+ take_str 800 stderr in
            (Some ("Shell output (approved):" +:+ nl +:+ output), ss', w2)
        | (RunFailed err, w1) =>
            (Some ("Shell command error: " +:+ err), ss',
             wlog logger e "run_shell_fail"
                  [("action", VStr "RUN_SHELL_FAIL"); ("cwd", VStr cwd_);
                   ("cmd", VStr cmd_); ("error", VStr err)] w1)
        end
      else
        (Some "Shell command cancelled.", ss',
         wlog logger e "shell_cmd_cancelled"
              [("cmd", VStr cmd_); ("cwd", VStr cwd_);
               ("user_message", VStr user_message)] w)
  | None => (None, ss, w)
  end.







(** The specification's two conditions on a command, in its words and with
    the code's disregard of case: the text contains a denylisted substring;
    a prefix of the text is on the allowlist. *)
Definition mentions_denylisted (cmd_ : string) : Prop :=
  exists bad pre post, bad ∈ blocklist /\ lower cmd_ = pre +:+ bad +:+ post.


End Shell.

(** No denylisted command waits for approval. *)
Definition pending_not_blocked (ss : SessionState) : Prop :=
  forall c d, pending_shell_cmd ss = Some (c, d) -> Shell.is_blocked c = false.

(** Between two states of the world no process was started, or one was, for
    a command that mentions no denylisted substring. *)
Definition started_not_blocked (before after : list Invocation) : Prop :=
  after = before \/
  exists c d, Shell.is_blocked c = false /\
              after = before ++ [Shell.shell_invocation c d].

(** *** A session on a small file system *)

Definition env1 : Env :=
  {| user_home := "/home/u";
     abspath := fun p => p;
     utc_now_iso := "2025-01-01T12:00:00+00:00";
     get_timestamp := "20250101_120000";
     mkstemp := "/tmp/tmpk3x9w2ab";
     unified_diff := fun f1 f2 a b =>
       "--- " +:+ f1 +:+ nl +:+ "+++ " +:+ f2 +:+ nl
       +:+ "-" +:+ a +:+ nl +:+ "+" +:+ b +:+ nl;
     open_w_error := fun _ => None;
     subprocess_run := fun _ f => (Completed "" "", f) |}.

Definition ss0 : SessionState :=
  {| pending_file_change := None; pending_shell_cmd := None;
     pending_pip_install := None; pending_npm_install := None;
     global_approval := false |}.

Definition ss_trusting : SessionState :=
  {| pending_file_change := None; pending_shell_cmd := None;
     pending_pip_install := None; pending_npm_install := None;
     global_approval := true |}.

Definition w0 : World :=
  {| fs := {[ "/home/u/notes.txt" := "old text" ]};
     procs := [];
     events := ∅ |}.

Definition edit_notes : Files.Args :=
  {| Files.path := "/home/u/notes.txt"; Files.content := Some "new text" |}.

(** Propose, then resolve with [msg]. *)
Definition edit_then_resolve (e : Env) (args : Files.Args) (msg : string)
    (ss : SessionState) (w : World) : option string * SessionState * World :=
  let '(_, ss1, w1) := Files.edit_or_create_file e args ss w in
  Files.handle_pending_file_change e msg ss1 w1.

End Handlers.

(* ===================================================================== *)
(** ** agent_tools/utils.py                                               *)
(* ===================================================================== *)

Module Utils.

Section Chunks.

(** The characters of a [str]. *)
Context {char : Type}.

(** What iterating the generator to its end gives: the chunks it yields, or
    the [ValueError] of [range] on its first [next]. *)
Inductive generated :=
| Yields (chunks : list (list char))
| ValueError (msg : string).

(** The loop [for i in range(i, n, chunk_size): yield text[i:i+chunk_size]]
    for [chunk_size > 0].  Each round moves [i] up by [chunk_size >= 1], so
    [n - i] rounds are enough. *)
Fixpoint chunks_from (fuel : nat) (text : list char) (i n chunk_size : nat)
  : list (list char) :=
  match fuel with
  | O => []
  | S fuel' =>
      if (i <? n)%nat
      then take chunk_size (drop i text)
           :: chunks_from fuel' text (i + chunk_size) n chunk_size
      else []
  end.

(** [split_text_chunks(text, chunk_size=500)]; a negative step makes
    [range(0, len(text), chunk_size)] empty. *)
Definition split_text_chunks (text : list char) (chunk_size : Z) : generated :=
  if chunk_size =? 0 then ValueError "range() arg 3 must not be zero"
  else if chunk_size <? 0 then Yields []
  else Yields (chunks_from (length text) text 0 (length text)
                           (Z.to_nat chunk_size)).

End Chunks.

Arguments generated : clear implicits.

End Utils.

(* ===================================================================== *)
(** ** omni_agent.py: the PIN gate and the secret workflow                *)
(* ===================================================================== *)

Module Agent.

Import Vault.

Definition affirm : list string :=
  ["yes"; "ok"; "allow"; "approve"; "go ahead"; "sure"; "yep"; "confirmed";
   "trust it"; "affirm"; "green light"; "make it so"; "roger that"].

(** [is_affirmative(msg)] *)
Definition is_affirmative (msg : string) : bool :=
  let msg_low := lower msg in
  any_in affirm msg_low.



(** Truth value of [session_state.get(key)] for a key that holds a string. *)
Definition truthy (o : option string) : bool :=
  match o with
  | Some s => negb (bool_decide (s = ""))
  | None => false
  end.



Section AgentOps.

Context {C : Crypto}.




End AgentOps.



End Agent.

(* ===================================================================== *)
(** ** agent_tools/memory_retriever.py: the rarest qualifying tag         *)
(* ===================================================================== *)

Module Retriever.

(** [sorted(l, key=lambda x: x[1])]: the sort is stable, so its result is
    the one of inserting the pairs from the last to the first, each before
    the first pair whose count is not smaller. *)
Fixpoint insert_by_count (x : string * Z) (l : list (string * Z))
  : list (string * Z) :=
  match l with
  | [] => [x]
  | y :: l' => if x.2 <=? y.2 then x :: y :: l' else y :: insert_by_count x l'
  end.

Definition sorted_by_count (l : list (string * Z)) : list (string * Z) :=
  foldr insert_by_count [] l.

(** [_get_rarest_qualifying_tag(tag_counts, min_tag_freq)]; [tag_counts] is
    the dict in its insertion order, and [None] stands for the pair
    [(None, None)]. *)
Definition _get_rarest_qualifying_tag (tag_counts : list (string * Z))
    (min_tag_freq : Z) : option (string * Z) :=
  let qualifying :=
    filter (fun tc : string * Z => min_tag_freq <= tc.2) tag_counts in
  match qualifying with
  | [] => None
  | _ => head (sorted_by_count qualifying)
  end.

End Retriever.

(* ===================================================================== *)
(** * Properties                                                          *)
(* ===================================================================== *)

(** ** Python data *)

Section PyFacts.

Import Py.

(** Induction over nested values: the hypotheses reach inside tuples, lists
    and dict values. *)
Lemma pyval_nested_ind (P : pyval -> Prop) :
  P VNone ->
  (forall b, P (VBool b)) ->
  (forall z, P (VInt z)) ->
  (forall s, P (VStr s)) ->
  (forall l, Forall P l -> P (VTuple l)) ->
  (forall l, Forall P l -> P (VList l)) ->
  (forall kvs, Forall (fun kv => P kv.2) kvs -> P (VDict kvs)) ->
  forall v, P v.
Proof.
  intros HN HB HI HS HT HL HD.
  fix IH 1.
  intros [ | b | z | s | l | l | kvs].
  - exact HN.
  - apply HB.
  - apply HI.
  - apply HS.
  - apply HT. induction l as [ | x l IHl]; constructor; [apply IH | exact IHl].
  - apply HL. induction l as [ | x l IHl]; constructor; [apply IH | exact IHl].
  - apply HD.
    induction kvs as [ | [k x] kvs IHl]; constructor; [apply IH | exact IHl].
Qed.



Lemma lower_app (a b : string) : lower (a +:+ b) = lower a +:+ lower b.
Proof. induction a as [ | c a IH]; simpl; [done | by rewrite IH]. Qed.

Lemma prefix_app (p s : string) : String.prefix p (p +:+ s) = true.
Proof.
  induction p as [ | c p IH]; simpl; [by destruct s | ].
  destruct (Ascii.ascii_dec c c); [exact IH | done].
Qed.

Lemma prefix_split (p s : string) :
  String.prefix p s = true -> exists rest, s = p +:+ rest.
Proof.
  revert s. induction p as [ | c p IH]; intros s H; simpl in *.
  - by exists s.
  - destruct s as [ | c' s]; simpl in H; [done | ].
    destruct (Ascii.ascii_dec c c') as [-> | ]; [ | done].
    destruct (IH _ H) as [rest ->]. by exists rest.
Qed.

Lemma contains_unfold (sub s : string) :
  contains sub s =
  if String.prefix sub s then true
  else match s with
       | EmptyString => false
       | String _ s' => contains sub s'
       end.
Proof. by destruct s. Qed.

(** [sub in s] holds exactly when [s] is [pre + sub + post]. *)
Lemma contains_spec (sub s : string) :
  contains sub s = true <-> exists pre post, s = pre +:+ sub +:+ post.
Proof.
  split.
  - induction s as [ | c s IH]; rewrite contains_unfold;
      destruct (String.prefix sub _) eqn:Hp; try done.
    + intros _. destruct (prefix_split _ _ Hp) as [rest Hr].
      exists "", rest. exact Hr.
    + intros _. destruct (prefix_split _ _ Hp) as [rest Hr].
      exists "", rest. exact Hr.
    + intros H. destruct (IH H) as (pre & post & ->).
      by exists (String c pre), post.
  - intros (pre & post & ->).
    induction pre as [ | c pre IH]; rewrite contains_unfold.
    + change ("" +:+ sub +:+ post) with (sub +:+ post). by rewrite prefix_app.
    + change (String c pre +:+ sub +:+ post)
        with (String c (pre +:+ sub +:+ post)).
      by destruct (String.prefix sub _).
Qed.

Lemma existsb_elem_of {A} (f : A -> bool) (l : list A) :
  existsb f l = true <-> exists x, x ∈ l /\ f x = true.
Proof.
  rewrite existsb_exists. split; intros (x & Hx & Hf); exists x; split;
    try done; by apply list_elem_of_In.
Qed.

End PyFacts.

(** ** The event logger *)

Section LoggerFacts.

Import Py Logger.


(** A tuple is not a list for [isinstance]: it is stored as [None]. *)
Lemma _mask_pii_tuple (l : list pyval) : _mask_pii (VTuple l) = VNone.
Proof. reflexivity. Qed.

Lemma _mask_pii_idem (v : pyval) : _mask_pii (_mask_pii v) = _mask_pii v.
Proof.
  induction v as [ | b | z | s | l IH | l IH | kvs IH] using pyval_nested_ind;
    simpl; try done.
  - f_equal. induction IH as [ | x l Hx _ IHl]; simpl; [done | by rewrite Hx, IHl].
  - f_equal. induction IH as [ | [k x] kvs Hx _ IHl]; simpl in *; [done | ].
    by rewrite Hx, IHl.
Qed.







End LoggerFacts.

(** ** The task queue *)

Section TaskQueueFacts.

Import Py TaskQueue.

(** The fuel of the two heap loops is never what stops them: any larger
    fuel gives the same result. *)
Lemma _siftdown_loop_fuel (fuel1 fuel2 : nat) (heap : list item)
    (startpos pos : nat) (newitem : item) :
  (pos <= fuel1)%nat -> (pos <= fuel2)%nat ->
  _siftdown_loop fuel1 heap startpos pos newitem
  = _siftdown_loop fuel2 heap startpos pos newitem.
Proof.
  revert fuel2 heap pos.
  induction fuel1 as [ | fuel1 IH]; intros fuel2 heap pos H1 H2;
    destruct fuel2 as [ | fuel2]; cbn [_siftdown_loop]; try done;
    destruct (startpos <? pos)%nat eqn:E; try done;
    apply Nat.ltb_lt in E; try lia.
  destruct (heap !! ((pos - 1) / 2)%nat) as [parent | ]; [ | done].
  destruct (item_lt newitem parent) as [[ | ] | ]; try done.
  assert ((pos - 1) / 2 < pos)%nat.
  { apply Nat.Div0.div_lt_upper_bound. lia. }
  apply IH; lia.
Qed.

Lemma _siftup_loop_fuel (fuel1 fuel2 : nat) (heap : list item)
    (endpos pos : nat) :
  (endpos - pos <= fuel1)%nat -> (endpos - pos <= fuel2)%nat ->
  _siftup_loop fuel1 heap endpos pos = _siftup_loop fuel2 heap endpos pos.
Proof.
  revert fuel2 heap pos.
  induction fuel1 as [ | fuel1 IH]; intros fuel2 heap pos H1 H2;
    destruct fuel2 as [ | fuel2]; cbn [_siftup_loop]; try done;
    destruct (2 * pos + 1 <? endpos)%nat eqn:E; try done;
    apply Nat.ltb_lt in E; try lia.
  match goal with
  | |- match ?s with _ => _ end = _ => destruct s as [c' | ex] eqn:Hs
  end; [ | done].
  destruct (heap !! c') as [c | ]; [ | done].
  assert (2 * pos + 1 <= c')%nat.
  { destruct (2 * pos + 1 + 1 <? endpos)%nat; [ | by injection Hs as <-].
    destruct (heap !! (2 * pos + 1)%nat), (heap !! (2 * pos + 1 + 1)%nat);
      try discriminate.
    destruct (item_lt _ _) as [[ | ] | ]; simpl in Hs;
      try discriminate; injection Hs as <-; lia. }
  apply IH; lia.
Qed.

(** C2.  The code at the specification's own example: after [add_task] with
    priorities 5, 1, 3 (in that order), the calls of [next_task] return the
    tasks given priorities 5, 3, 1, and then None.  [add_task] stores the
    negated priority in a min-heap, so the larger number comes out first,
    against the "lower numbers run first" of its docstring. *)
Theorem C2_add_5_1_3_pops_5_3_1 :
  exists tm,
    add_tasks [("t5", None, 5); ("t1", None, 1); ("t3", None, 3)] init
      = (tm, Ok ()) /\
    popped_priorities (next_tasks 4 tm).1 = [Some 5; Some 3; Some 1; None].
Proof. eexists. split; vm_compute; reflexivity. Qed.

(** Two tasks with distinct priorities, added in either order to an empty
    queue: [next_task] returns the one with the larger number. *)
Lemma next_task_returns_larger_number (a1 a2 : string)
    (ps1 ps2 : option (gmap string string)) (p1 p2 : Z) :
  p1 < p2 ->
  forall tm, (add_tasks [(a1, ps1, p1); (a2, ps2, p2)] init = (tm, Ok ())
              \/ add_tasks [(a2, ps2, p2); (a1, ps1, p1)] init = (tm, Ok ())) ->
  exists tm',
    next_task tm
      = (tm', Ok (Some {| priority := - p2; action := a2;
                          params := default ∅ ps2 |})).
Proof.
  intros Hlt tm [H | H]; revert H; unfold add_tasks, add_task, heappush,
    _siftdown, init; simpl; unfold item_lt; simpl.
  - rewrite decide_False by lia.
    destruct (- p2 <? - p1) eqn:E; [ | lia]. simpl.
    intros [= <-]. unfold next_task, heappop. simpl. eauto.
  - rewrite decide_False by lia.
    destruct (- p1 <? - p2) eqn:E; [lia | ]. simpl.
    intros [= <-]. unfold next_task, heappop. simpl.
    unfold _siftup. simpl. eauto.
Qed.

(** C10.  [add_task] is not total: on a queue holding one task, adding a
    second task with the same priority and a different action or different
    params makes the heap compare the two task dicts, which raises
    TypeError; the call does not return, and the queue is left with the new
    entry appended. *)
Theorem C10_add_task_equal_priority_raises (a1 a2 : string)
    (ps1 ps2 : option (gmap string string)) (p : Z) :
  (a1, default ∅ ps1) <> (a2, default ∅ ps2) ->
  exists tm1 tm2 msg,
    add_task init a1 ps1 p = (tm1, Ok ()) /\
    add_task tm1 a2 ps2 p = (tm2, Raise (TypeError msg)) /\
    length (queue tm2) = 2%nat.
Proof.
  intros Hne. do 3 eexists. split; [reflexivity | ].
  unfold add_task, heappush, _siftdown. simpl. unfold item_lt. simpl.
  rewrite decide_True by done.
  rewrite decide_False; [split; reflexivity | ].
  intros [= -> Hp]. apply Hne. by rewrite Hp.
Qed.

(** An instance of C10: two tasks of priority 5 named "a" and "b". *)
Lemma C10_add_task_raises_witness :
  exists tm1 tm2 msg,
    add_task init "a" None 5 = (tm1, Ok ()) /\
    add_task tm1 "b" None 5 = (tm2, Raise (TypeError msg)) /\
    length (queue tm2) = 2%nat.
Proof.
  apply (C10_add_task_equal_priority_raises "a" "b" None None 5).
  intros [=].
Defined.

End TaskQueueFacts.

(** ** The secret vault *)

Section VaultFacts.

Import Py Vault.

Lemma SymbolicLaws : CryptoLaws SymbolicCrypto.
Proof.
  split; simpl.
  - intros k iv m. by rewrite decide_True.
  - intros k k' iv m Hne. by rewrite decide_False.
  - by intros pin pin' salt [= ->].
  - done.
Qed.

Context {C : Crypto}.

Lemma get_fernet_eq (e : Env) (pin : string) (d : Disk) :
  get_fernet e pin d = (pbkdf2_hmac pin (salt_of e d), salted e d).
Proof.
  unfold get_fernet, get_salt, salt_of, salted.
  destruct d as [[s | ] v]; simpl; done.
Qed.

Lemma save_vault_eq (e : Env) (s : Secrets) (pin : string) (d : Disk) :
  save_vault e s pin d =
  {| salt_file := Some (salt_of e d);
     vault_file := Some (fernet_encrypt (pbkdf2_hmac pin (salt_of e d)) (iv e)
                                        (json_dumps s)) |}.
Proof. unfold save_vault. by rewrite get_fernet_eq. Qed.

Lemma load_vault_eq (e : Env) (pin : string) (d : Disk) :
  load_vault e pin d =
  (match vault_file d with
   | None => Some ∅
   | Some enc =>
       match fernet_decrypt (pbkdf2_hmac pin (salt_of e d)) enc with
       | Some dec => json_loads dec
       | None => None
       end
   end, salted e d).
Proof.
  unfold load_vault. rewrite get_fernet_eq. simpl.
  destruct (vault_file d) as [enc | ]; [ | done].
  by destruct (fernet_decrypt _ enc).
Qed.

(** A call of [set_secret] that passes validation: load, update, save. *)
Lemma set_secret_eq (e : Env) (name v pin : string) (d : Disk) :
  name <> "" -> v <> "" ->
  set_secret e name v pin d =
  save_vault e (<[name := set_entry (or_empty (load_vault e pin d).1 !! name)
                                    v (now e)]>
                  (or_empty (load_vault e pin d).1)) pin d.
Proof.
  intros Hn Hv. unfold set_secret.
  rewrite decide_False by done. rewrite decide_False by done.
  rewrite load_vault_eq. simpl. by rewrite !save_vault_eq.
Qed.

Context {L : CryptoLaws C}.

(** Loading what was just saved, under the same PIN. *)
Lemma load_save (e e' : Env) (s : Secrets) (pin : string) (d : Disk) :
  (load_vault e' pin (save_vault e s pin d)).1 = Some s.
Proof.
  rewrite load_vault_eq, save_vault_eq. simpl.
  unfold salt_of at 1. simpl.
  by rewrite decrypt_encrypt, loads_dumps.
Qed.

(** Loading what was saved under another PIN. *)
Lemma load_save_other (e e' : Env) (s : Secrets) (pin pin' : string) (d : Disk) :
  pin' <> pin -> (load_vault e' pin' (save_vault e s pin d)).1 = None.
Proof.
  intros Hne. rewrite load_vault_eq, save_vault_eq. simpl.
  unfold salt_of at 1. simpl.
  rewrite decrypt_other_key; [done | ].
  intros Hk. apply pbkdf2_inj in Hk. congruence.
Qed.


(** C3.  On a disk whose vault file PIN [pin] fails to open ([load_vault]
    returns None), [set_secret] with a valid name and value under [pin]
    does not leave the vault file as it was: it writes a new file, which
    opens under [pin] to a vault holding only the new entry, and every PIN
    that opened the old file now gets the failure sentinel, so what was
    stored is lost. *)
Theorem C3_set_secret_wrong_pin_overwrites (e e' : Env)
    (name value_ pin : string) (d : Disk) :
  name <> "" -> value_ <> "" ->
  (load_vault e pin d).1 = None ->
  let d' := set_secret e name value_ pin d in
  vault_file d' <> vault_file d /\
  (load_vault e' pin d').1
    = Some {[ name := {| current := Some value_;
                         last_update := Some (now e);
                         archive := Some [];
                         deleted := None;
                         deleted_date := None |} ]} /\
  (forall pin0 old, (load_vault e pin0 d).1 = Some old ->
     (load_vault e' pin0 d').1 = None).
Proof.
  intros Hn Hv Hfail d'. subst d'.
  rewrite set_secret_eq by done. rewrite Hfail. simpl.
  rewrite lookup_empty. simpl. rewrite insert_empty.
  split; [ | split].
  - intros Heq.
    pose proof (load_save e e
      {[name := {| current := Some value_; last_update := Some (now e);
                   archive := Some []; deleted := None;
                   deleted_date := None |}]} pin d) as Hload.
    rewrite load_vault_eq in Hload, Hfail. simpl in Hload, Hfail.
    rewrite save_vault_eq in Heq, Hload. simpl in Heq, Hload.
    unfold salt_of at 1 in Hload. simpl in Hload.
    fold (salt_of e d) in Hload.
    destruct (vault_file d) as [tok | ]; [ | done].
    injection Heq as Heq. rewrite Heq in Hload. congruence.
  - apply load_save.
  - intros pin0 old Hold. apply load_save_other.
    intros ->. congruence.
Qed.

(** What [set_entry] stores. *)
Lemma set_entry_current (o : option SecretEntry) (v t : string) :
  current (set_entry o v t) = Some v.
Proof.
  destruct o as [en | ]; [ | done]. unfold set_entry.
  destruct (entry_truthy en), (current en); done.
Qed.

Lemma set_entry_truthy (o : option SecretEntry) (v t : string) :
  entry_truthy (set_entry o v t) = true.
Proof.
  unfold entry_truthy. by rewrite set_entry_current.
Qed.

Lemma current_truthy (en : SecretEntry) (c : string) :
  current en = Some c -> entry_truthy en = true.
Proof.
  intros H. unfold entry_truthy. by rewrite H.
Qed.

(** Overwriting an entry that has a current value keeps its archive and
    puts the old value in front. *)
Lemma set_entry_archive (en : SecretEntry) (c v t : string) :
  current en = Some c ->
  archive (set_entry (Some en) v t)
  = Some ({| value := c; timestamp := default t (last_update en) |}
          :: default [] (archive en)).
Proof.
  intros Hc. unfold set_entry. by rewrite (current_truthy _ _ Hc), Hc.
Qed.

(** Reading back after a valid [set_secret]: the loaded vault with the one
    entry replaced. *)
Lemma load_set_secret (e e' : Env) (name v pin : string) (d : Disk) :
  name <> "" -> v <> "" ->
  (load_vault e' pin (set_secret e name v pin d)).1
  = Some (<[name := set_entry (or_empty (load_vault e pin d).1 !! name)
                              v (now e)]>
            (or_empty (load_vault e pin d).1)).
Proof. intros Hn Hv. rewrite set_secret_eq by done. apply load_save. Qed.

(** C4.  For a secret name [A] and values [v1], [v2] (non-empty strings, as
    [set_secret] requires) under one PIN: after [set_secret(A, v1)] then
    [set_secret(A, v2)], [get_secret(A)] returns [v2] and
    [get_secret(A, archived=True, version=0)] returns [v1].  And whenever
    [set_secret], under a PIN that opens the vault, overwrites an entry that
    has a current value, the vault read back differs only in that entry,
    whose archive is the old archive with the old current value put in
    front: nothing archived is dropped. *)
Theorem C4_set_secret_keeps_history (e1 e2 e3 e4 : Env)
    (A v1 v2 pin : string) (d : Disk) :
  A <> "" -> v1 <> "" -> v2 <> "" ->
  let d2 := set_secret e2 A v2 pin (set_secret e1 A v1 pin d) in
  (get_secret e3 A pin false 0 d2).1 = Ok (Some v2) /\
  (get_secret e4 A pin true 0 d2).1 = Ok (Some v1) /\
  (forall e e' name v secrets entry c,
     name <> "" -> v <> "" ->
     (load_vault e pin d).1 = Some secrets ->
     secrets !! name = Some entry ->
     current entry = Some c ->
     exists entry',
       (load_vault e' pin (set_secret e name v pin d)).1
         = Some (<[name := entry']> secrets) /\
       current entry' = Some v /\
       archive entry'
         = Some ({| value := c;
                    timestamp := default (now e) (last_update entry) |}
                 :: default [] (archive entry))).
Proof.
  intros HA Hv1 Hv2 d2.
  assert (Hload2 : forall e', exists s en2,
            (load_vault e' pin d2).1 = Some s /\ s !! A = Some en2 /\
            current en2 = Some v2 /\
            exists t rest, archive en2
                           = Some ({| value := v1; timestamp := t |} :: rest)).
  { intros e'. subst d2.
    rewrite load_set_secret by done.
    rewrite load_set_secret by done. simpl.
    rewrite lookup_insert_eq.
    eexists _, _. split; [reflexivity | ].
    rewrite lookup_insert_eq. split; [reflexivity | ].
    split; [apply set_entry_current | ].
    rewrite (set_entry_archive _ v1) by apply set_entry_current.
    by eexists _, _. }
  split; [ | split].
  - destruct (Hload2 e3) as (s & en2 & Hs & Hen & Hcur & _).
    unfold get_secret.
    destruct (load_vault e3 pin d2) as [loaded d3]. simpl in Hs. subst loaded.
    simpl. rewrite Hen, (current_truthy _ _ Hcur). simpl. by rewrite Hcur.
  - destruct (Hload2 e4) as (s & en2 & Hs & Hen & Hcur & t & rest & Harch).
    unfold get_secret.
    destruct (load_vault e4 pin d2) as [loaded d3]. simpl in Hs. subst loaded.
    simpl. rewrite Hen, (current_truthy _ _ Hcur), Harch. reflexivity.
  - intros e e' name v secrets entry c Hn Hv Hl Hentry Hc.
    exists (set_entry (Some entry) v (now e)).
    rewrite load_set_secret by done. rewrite Hl. simpl. rewrite Hentry.
    split; [done | ]. split; [apply (set_entry_current (Some entry)) | ].
    by apply (set_entry_archive entry c).
Qed.

(** X1.  [restore_secret] on a version from 0 up to the archive's length: the
    chosen archive value becomes current and the old current value goes to
    the front of what is left of the archive. *)
Lemma restore_secret_in_range (e e' : Env) (name pin : string) (version : Z)
    (d : Disk) (secrets : Secrets) (entry : SecretEntry)
    (arch : list ArchiveItem) (it : ArchiveItem) (c : string) :
  (load_vault e pin d).1 = Some secrets ->
  secrets !! name = Some entry ->
  current entry = Some c ->
  archive entry = Some arch ->
  0 <= version ->
  arch !! Z.to_nat version = Some it ->
  let r := restore_secret e name pin version d in
  r.1 = Ok true /\
  (load_vault e' pin r.2).1
  = Some (<[name := {| current := Some (value it);
                       last_update := Some (now e);
                       archive :=
                         Some ({| value := c;
                                  timestamp := default (now e) (last_update entry) |}
                               :: take (Z.to_nat version) arch
                                  ++ drop (S (Z.to_nat version)) arch);
                       deleted := deleted entry;
                       deleted_date := deleted_date entry |}]> secrets).
Proof.
  intros Hl Hentry Hc Harch Hv Hit r. subst r. unfold restore_secret.
  pose proof (lookup_lt_Some _ _ _ Hit) as Hlen.
  destruct (load_vault e pin d) as [loaded d1]. simpl in Hl. subst loaded.
  simpl. rewrite Hentry, (current_truthy _ _ Hc), Harch.
  destruct (Z.of_nat (length arch) <=? version) eqn:E; [lia | ].
  unfold list_pop, norm_index.
  destruct ((0 <=? version) && (version <? Z.of_nat (length arch))) eqn:E2;
    [ | lia].
  rewrite Hit, Hc. simpl. split; [done | ]. apply load_save.
Qed.

(** X2.  [restore_secret] on a missing secret, or on a version at or beyond the
    archive's length: it returns False and the vault file is untouched. *)
Lemma restore_secret_too_large (e : Env) (name pin : string) (version : Z)
    (d : Disk) :
  (forall entry arch, or_empty (load_vault e pin d).1 !! name = Some entry ->
     archive entry = Some arch -> Z.of_nat (length arch) <= version) ->
  let r := restore_secret e name pin version d in
  r.1 = Ok false /\ vault_file r.2 = vault_file d.
Proof.
  intros Hbig r. subst r. unfold restore_secret.
  rewrite load_vault_eq in *. simpl in *.
  destruct (or_empty _ !! name) as [entry | ]; [ | done].
  destruct (entry_truthy entry); [ | done].
  destruct (archive entry) as [arch | ] eqn:Harch; [ | done].
  specialize (Hbig entry arch eq_refl Harch).
  destruct (Z.of_nat (length arch) <=? version) eqn:E; [done | lia].
Qed.

End VaultFacts.

Section VaultInstances.

Import Py Vault.


(** An instance of C3: the vault of the scenario, written to under PIN
    "99999". *)
Lemma C3_set_secret_wrong_pin_witness :
  let d' := set_secret env0 "B" "w" "99999" disk_v1_v2 in
  vault_file d' <> vault_file disk_v1_v2 /\
  (get_secret env0 "A" "12345" false 0 disk_v1_v2).1 = Ok (Some "v2") /\
  (load_vault env0 "12345" d').1 = None.
Proof.
  intros d'.
  pose proof (@C3_set_secret_wrong_pin_overwrites SymbolicCrypto SymbolicLaws
                env0 env0 "B" "w" "99999" disk_v1_v2) as H.
  destruct H as (Hchanged & _ & Hlost).
  - discriminate.
  - discriminate.
  - vm_compute. reflexivity.
  - split; [exact Hchanged | split].
    + vm_compute. reflexivity.
    + apply (Hlost "12345" (or_empty (load_vault env0 "12345" disk_v1_v2).1)).
      vm_compute. reflexivity.
Defined.

(** An instance of C4: the scenario itself. *)
Lemma C4_set_secret_keeps_history_witness :
  (get_secret env0 "A" "12345" false 0 disk_v1_v2).1 = Ok (Some "v2") /\
  (get_secret env0 "A" "12345" true 0 disk_v1_v2).1 = Ok (Some "v1").
Proof.
  pose proof (@C4_set_secret_keeps_history SymbolicCrypto SymbolicLaws
                env0 env0 env0 env0 "A" "v1" "v2" "12345" no_files) as H.
  destruct H as (Hcur & Harch & _); try discriminate.
  split; [exact Hcur | exact Harch].
Defined.

(** C5.  The code at versions outside the archive, on the scenario's vault
    (current "v2", archive ["v1"]): version 1 is refused with False and
    version 0 is restored, but version -2 passes the length test and
    [list.pop] raises IndexError instead of the call returning False; and
    version -1 passes it too and is served as the last archive element. *)
Theorem C5_restore_secret_negative_version :
  (restore_secret env0 "A" "12345" 1 disk_v1_v2).1 = Ok false /\
  (restore_secret env0 "A" "12345" (-2) disk_v1_v2).1
    = Raise (IndexError "pop index out of range") /\
  (restore_secret env0 "A" "12345" (-1) disk_v1_v2).1 = Ok true /\
  (get_secret env0 "A" "12345" false 0
     (restore_secret env0 "A" "12345" (-1) disk_v1_v2).2).1 = Ok (Some "v1").
Proof. repeat split; vm_compute; reflexivity. Qed.

End VaultInstances.

(** ** The approval-gated handlers *)

Section HandlerFacts.

Import Py Logger Handlers.



(** A command that spells a denylisted entry as the list has it is one
    that mentions it. *)
Lemma literal_mentions_denylisted (bad pre post : string) :
  bad ∈ Shell.blocklist ->
  Shell.mentions_denylisted (pre +:+ bad +:+ post).
Proof.
  intros Hin. exists bad, (lower pre), (lower post). split; [done | ].
  rewrite !lower_app. do 2 f_equal.
  unfold Shell.blocklist in Hin.
  repeat (apply elem_of_cons in Hin as [-> | Hin]; [reflexivity | ]).
  by apply elem_of_nil in Hin.
Qed.

Lemma run_proc_procs (e : Env) (inv : Invocation) (w : World) :
  procs (run_proc e inv w).2 = procs w ++ [inv].
Proof. unfold run_proc. by destruct (subprocess_run e inv (fs w)). Qed.





(** [os.remove] of a file that was created on a path that did not exist
    brings the files back. *)
Lemma remove_temp_fresh (e : Env) (tmp c : string) (w : World) :
  fs w !! tmp = None ->
  fs (Files.remove_temp e tmp (set_fs (<[tmp := c]> (fs w)) w)) = fs w.
Proof.
  intros Hfresh. unfold Files.remove_temp. simpl.
  rewrite lookup_insert_eq. simpl.
  rewrite delete_insert_eq. by apply delete_id.
Qed.

Lemma remove_temp_procs (e : Env) (tmp : string) (w : World) :
  procs (Files.remove_temp e tmp w) = procs w.
Proof. unfold Files.remove_temp. by destruct (fs w !! tmp). Qed.

Lemma show_diff_world (e : Env) (f1 f2 : string) (w : World) :
  fs (Files.show_diff e f1 f2 w).2 = fs w /\
  procs (Files.show_diff e f1 f2 w).2 = procs w.
Proof.
  unfold Files.show_diff. by destruct (fs w !! f1), (fs w !! f2).
Qed.

(** Name the result of the [show_diff] call in the goal, with what it
    leaves of the world. *)
Ltac case_show_diff :=
  match goal with
  | |- context [Files.show_diff ?e ?a ?b ?w] =>
      let Hfs := fresh "Hfs" in
      let Hprocs := fresh "Hprocs" in
      destruct (show_diff_world e a b w) as [Hfs Hprocs];
      destruct (Files.show_diff e a b w) as [? ?]
  end.

(** What the propose step of the file handler leaves behind, when the path
    is under the home directory: the pending slot is filled with the
    temporary file's name, the temporary file is written, and a target that
    existed has been copied to its backup. *)
Lemma edit_or_create_file_effect (e : Env) (args : Files.Args)
    (ss : SessionState) (w : World) :
  let abs_path := abspath e (Files.path args) in
  let bpath := abs_path +:+ ".bak." +:+ get_timestamp e in
  startswith abs_path (user_home e) = true ->
  let p := Files.edit_or_create_file e args ss w in
  (exists pc, p.1.2 = set_pending_file_change (Some pc) ss /\
              fc_temp_path pc = mkstemp e) /\
  procs p.2 = procs w /\
  fs p.2 = <[mkstemp e := default "" (Files.content args)]>
             (match fs w !! abs_path with
              | Some old => <[bpath := old]> (fs w)
              | None => fs w
              end).
Proof.
  intros abs_path bpath Hhome p. subst p.
  unfold Files.edit_or_create_file. fold abs_path. rewrite Hhome. simpl.
  unfold Files.backup_file. fold bpath.
  destruct (fs w !! abs_path) as [old | ] eqn:Hold; simpl;
    repeat case_bool_decide; try case_show_diff; simpl in *;
    (split; [eexists; split; reflexivity | ]); split; congruence.
Qed.




End HandlerFacts.

(* ===================================================================== *)
(** * Further properties of the code                                      *)
(* ===================================================================== *)

(** ** secure_vault.py: reads, deletion and the PIN change *)

Section VaultMore.

Import Py Vault.

Context {C : Crypto}.

(** [get_secret] reads the entry of [name] in the loaded vault and answers
    from it; it touches the disk only as [load_vault] does. *)
Lemma get_secret_answer (e : Env) (name pin : string) (archived : bool)
    (version : Z) (d : Disk) :
  get_secret e name pin archived version d
  = (entry_answer (or_empty (load_vault e pin d).1 !! name) archived version,
     salted e d).
Proof.
  unfold get_secret, entry_answer. rewrite load_vault_eq. simpl.
  destruct (or_empty _ !! name) as [entry | ]; [ | done].
  destruct (entry_truthy entry); simpl; [ | done].
  destruct archived; simpl; [ | done].
  destruct (archive entry) as [arch | ]; [ | done].
  by destruct (Z.of_nat (length arch) >? version).
Qed.

Lemma delete_secret_eq (e : Env) (name pin : string) (erase : bool) (d : Disk) :
  delete_secret e name pin erase d =
  match or_empty (load_vault e pin d).1 !! name with
  | Some entry =>
      (true,
       save_vault e
         (if erase then delete name (or_empty (load_vault e pin d).1)
          else <[name := {| current := current entry;
                            last_update := last_update entry;
                            archive := archive entry;
                            deleted := Some true;
                            deleted_date := Some (now e) |}]>
                 (or_empty (load_vault e pin d).1)) pin d)
  | None => (false, salted e d)
  end.
Proof.
  unfold delete_secret. rewrite load_vault_eq. cbn [fst snd].
  destruct (or_empty _ !! name); [ | done]. by rewrite !save_vault_eq.
Qed.

Lemma change_pin_eq (e : Env) (old_pin new_pin : string) (d : Disk) :
  change_pin e old_pin new_pin d =
  if negb (valid_new_pin new_pin) then (false, d)
  else match (load_vault e old_pin d).1 with
       | None => (false, salted e d)
       | Some secrets => (true, save_vault e secrets new_pin d)
       end.
Proof.
  unfold change_pin. destruct (negb _); [done | ].
  rewrite load_vault_eq. cbn [fst snd].
  destruct (match vault_file d with Some _ => _ | None => _ end); [ | done].
  by rewrite !save_vault_eq.
Qed.

Lemma restore_secret_salt (e : Env) (name pin : string) (version : Z)
    (d : Disk) :
  salt_file (restore_secret e name pin version d).2 = Some (salt_of e d) /\
  ((restore_secret e name pin version d).1 <> Ok true ->
   vault_file (restore_secret e name pin version d).2 = vault_file d).
Proof.
  unfold restore_secret. rewrite load_vault_eq. simpl.
  destruct (or_empty _ !! name) as [entry | ]; [ | done].
  destruct (entry_truthy entry); [ | done].
  destruct (archive entry) as [arch | ]; [ | done].
  destruct (Z.of_nat (length arch) <=? version); [done | ].
  destruct (list_pop arch version) as [[it rest] | ex]; [ | done].
  cbn [fst snd]. rewrite save_vault_eq. simpl. by split.
Qed.

(** X9.  The salt is generated once: when the salt file exists, no vault
    operation replaces it; and the read operations ([load_vault],
    [get_secret], [get_secret_archive_list]) never write the vault file. *)
Theorem salt_file_is_never_replaced (e : Env) (name value_ pin pin' : string)
    (archived erase : bool) (version : Z) (secrets : Secrets) (d : Disk)
    (salt : string) :
  salt_file d = Some salt ->
  (salt_file (load_vault e pin d).2 = Some salt /\
   salt_file (save_vault e secrets pin d) = Some salt /\
   salt_file (set_secret e name value_ pin d) = Some salt /\
   salt_file (get_secret e name pin archived version d).2 = Some salt /\
   salt_file (get_secret_archive_list e name pin d).2 = Some salt /\
   salt_file (restore_secret e name pin version d).2 = Some salt /\
   salt_file (delete_secret e name pin erase d).2 = Some salt /\
   salt_file (change_pin e pin pin' d).2 = Some salt) /\
  (vault_file (load_vault e pin d).2 = vault_file d /\
   vault_file (get_secret e name pin archived version d).2 = vault_file d /\
   vault_file (get_secret_archive_list e name pin d).2 = vault_file d).
Proof.
  intros Hs.
  assert (Hsalt : salt_of e d = salt) by (unfold salt_of; by rewrite Hs).
  split.
  - repeat split.
    + rewrite load_vault_eq. simpl. by rewrite Hsalt.
    + rewrite save_vault_eq. simpl. by rewrite Hsalt.
    + unfold set_secret. repeat case_decide; try done.
      rewrite load_vault_eq. cbn [fst snd]. rewrite save_vault_eq. simpl.
      unfold salt_of at 1. simpl. by rewrite Hsalt.
    + rewrite get_secret_answer. simpl. by rewrite Hsalt.
    + unfold get_secret_archive_list. rewrite load_vault_eq. simpl.
      destruct (or_empty _ !! name) as [en | ]; [destruct (entry_truthy en) | ];
        simpl; by rewrite Hsalt.
    + rewrite (proj1 (restore_secret_salt e name pin version d)).
      by rewrite Hsalt.
    + rewrite delete_secret_eq. destruct (or_empty _ !! name); cbn [fst snd].
      * rewrite save_vault_eq. simpl. by rewrite Hsalt.
      * simpl. by rewrite Hsalt.
    + rewrite change_pin_eq. destruct (negb _); [done | ].
      destruct (load_vault e pin d).1; cbn [fst snd].
      * rewrite save_vault_eq. simpl. by rewrite Hsalt.
      * simpl. by rewrite Hsalt.
  - repeat split.
    + by rewrite load_vault_eq.
    + by rewrite get_secret_answer.
    + unfold get_secret_archive_list. rewrite load_vault_eq. simpl.
      destruct (or_empty _ !! name) as [en | ]; [destruct (entry_truthy en) | ];
        done.
Qed.

Context {L : CryptoLaws C}.

(** X3.  [set_secret] with an empty name or an empty value leaves both files
    as they were; a valid [set_secret] under a PIN that opens the vault
    changes the entry of [name] only: every other name reads back as
    before. *)
Theorem set_secret_touches_one_entry (e e' : Env) (name value_ pin : string)
    (d : Disk) :
  (name = "" \/ value_ = "" -> set_secret e name value_ pin d = d) /\
  (name <> "" -> value_ <> "" ->
   forall secrets, (load_vault e pin d).1 = Some secrets ->
   exists secrets',
     (load_vault e' pin (set_secret e name value_ pin d)).1 = Some secrets' /\
     forall other, other <> name -> secrets' !! other = secrets !! other).
Proof.
  split.
  - unfold set_secret. intros [-> | ->]; [done | ]. by destruct (decide _).
  - intros Hn Hv secrets Hl. eexists. split.
    + rewrite load_set_secret by done. reflexivity.
    + intros other Hne. rewrite Hl. simpl. by rewrite lookup_insert_ne.
Qed.

(** X4.  [delete_secret] without [erase_archive], on a stored name under a
    PIN that opens the vault, returns True and only marks the entry: the
    entry read back has the same current value, last update and archive,
    with [deleted] set and the deletion date; and [get_secret] answers every
    request (any name, current or archived, any version) as it did before:
    a tombstoned secret stays readable. *)
Theorem delete_secret_tombstone_stays_readable (e e' : Env)
    (name pin : string) (d : Disk) (secrets : Secrets) (entry : SecretEntry) :
  (load_vault e pin d).1 = Some secrets ->
  secrets !! name = Some entry ->
  let r := delete_secret e name pin false d in
  r.1 = true /\
  (load_vault e' pin r.2).1
    = Some (<[name := {| current := current entry;
                         last_update := last_update entry;
                         archive := archive entry;
                         deleted := Some true;
                         deleted_date := Some (now e) |}]> secrets) /\
  (forall n archived version,
     (get_secret e' n pin archived version r.2).1
     = (get_secret e n pin archived version d).1).
Proof.
  intros Hl Hentry r. subst r. rewrite delete_secret_eq, Hl. simpl.
  rewrite Hentry. simpl. split; [done | ]. split; [apply load_save | ].
  intros n archived version. rewrite !get_secret_answer. simpl.
  rewrite load_save, Hl. simpl.
  destruct (decide (n = name)) as [-> | Hne].
  - rewrite lookup_insert_eq, Hentry.
    destruct entry as [[c | ] [lu | ] [arch | ] [dl | ] [dd | ]];
      by destruct archived.
  - by rewrite lookup_insert_ne.
Qed.

(** X5.  [delete_secret] with [erase_archive], on a stored name under a PIN
    that opens the vault, returns True and removes the entry: afterwards
    [get_secret] answers None for that name, current or archived at any
    version, and every other name reads back as before. *)
Theorem delete_secret_erase_removes_entry (e e' : Env) (name pin : string)
    (d : Disk) (secrets : Secrets) (entry : SecretEntry) :
  (load_vault e pin d).1 = Some secrets ->
  secrets !! name = Some entry ->
  let r := delete_secret e name pin true d in
  r.1 = true /\
  (load_vault e' pin r.2).1 = Some (delete name secrets) /\
  (forall archived version,
     (get_secret e' name pin archived version r.2).1 = Ok None) /\
  (forall n archived version, n <> name ->
     (get_secret e' n pin archived version r.2).1
     = (get_secret e n pin archived version d).1).
Proof.
  intros Hl Hentry r. subst r. rewrite delete_secret_eq, Hl. simpl.
  rewrite Hentry. simpl. split; [done | ]. split; [apply load_save | ].
  split.
  - intros archived version. rewrite get_secret_answer. simpl.
    rewrite load_save. simpl. by rewrite lookup_delete_eq.
  - intros n archived version Hne. rewrite !get_secret_answer. simpl.
    rewrite load_save, Hl. simpl. by rewrite lookup_delete_ne.
Qed.



(** X8.  [get_secret(name, pin, archived=True, version=k)] for [k >= 0], on
    an entry that has an archive, returns the value of the archive's [k]-th
    element, and None when [k] is at or beyond the archive's length. *)
Theorem get_secret_archived_by_version (e : Env) (name pin : string)
    (d : Disk) (secrets : Secrets) (entry : SecretEntry)
    (arch : list ArchiveItem) (version : Z) :
  (load_vault e pin d).1 = Some secrets ->
  secrets !! name = Some entry ->
  archive entry = Some arch ->
  0 <= version ->
  (get_secret e name pin true version d).1
  = Ok (value <$> arch !! Z.to_nat version).
Proof.
  intros Hl Hentry Harch Hv. rewrite get_secret_answer. simpl.
  rewrite Hl. simpl. rewrite Hentry. unfold entry_answer, entry_truthy.
  rewrite Harch. simpl. rewrite !orb_true_r. simpl.
  rewrite Z.gtb_ltb.
  destruct (version <? Z.of_nat (length arch)) eqn:E.
  - unfold list_index, norm_index.
    destruct ((0 <=? version) && (version <? Z.of_nat (length arch))) eqn:E2;
      [ | lia].
    destruct (arch !! Z.to_nat version) as [it | ] eqn:Hit; [done | ].
    apply lookup_ge_None in Hit. lia.
  - rewrite (proj2 (lookup_ge_None arch (Z.to_nat version))); [done | lia].
Qed.

(** [restore_secret] on an entry with a current value, at a version that
    indexes the archive from the front. *)
Lemma restore_secret_eq (e : Env) (name pin : string) (version : Z)
    (d : Disk) (secrets : Secrets) (entry : SecretEntry)
    (arch : list ArchiveItem) (it : ArchiveItem) (c : string) :
  (load_vault e pin d).1 = Some secrets ->
  secrets !! name = Some entry ->
  current entry = Some c ->
  archive entry = Some arch ->
  0 <= version ->
  arch !! Z.to_nat version = Some it ->
  restore_secret e name pin version d
  = (Ok true,
     save_vault e
       (<[name := {| current := Some (value it);
                     last_update := Some (now e);
                     archive :=
                       Some ({| value := c;
                                timestamp := default (now e) (last_update entry) |}
                             :: take (Z.to_nat version) arch
                                ++ drop (S (Z.to_nat version)) arch);
                     deleted := deleted entry;
                     deleted_date := deleted_date entry |}]> secrets) pin d).
Proof.
  intros Hl Hentry Hc Harch Hv Hit. unfold restore_secret.
  pose proof (lookup_lt_Some _ _ _ Hit) as Hlen.
  rewrite load_vault_eq in *. cbn [fst snd] in *. rewrite Hl.
  change (or_empty (Some secrets)) with secrets.
  rewrite Hentry, (current_truthy _ _ Hc), Harch.
  destruct (Z.of_nat (length arch) <=? version) eqn:E; [lia | ].
  unfold list_pop, norm_index.
  destruct ((0 <=? version) && (version <? Z.of_nat (length arch))) eqn:E2;
    [ | lia].
  rewrite Hit, Hc. by rewrite !save_vault_eq.
Qed.

(** X10.  Restoring version 0 twice is a round trip on the values: the
    first [restore_secret(name, pin, 0)] makes the newest archived value
    current, the second makes the original current value current again, and
    the archive then lists the same values in the same order as at the
    start (the time stamp of its first element is the first restore's). *)
Theorem restore_secret_twice_round_trip (e1 e2 e' : Env) (name pin : string)
    (d : Disk) (secrets : Secrets) (entry : SecretEntry) (c : string)
    (a0 : ArchiveItem) (rest : list ArchiveItem) :
  (load_vault e1 pin d).1 = Some secrets ->
  secrets !! name = Some entry ->
  current entry = Some c ->
  archive entry = Some (a0 :: rest) ->
  let r1 := restore_secret e1 name pin 0 d in
  let r2 := restore_secret e2 name pin 0 r1.2 in
  r1.1 = Ok true /\ r2.1 = Ok true /\
  (get_secret e' name pin false 0 r1.2).1 = Ok (Some (value a0)) /\
  (get_secret e' name pin false 0 r2.2).1 = Ok (Some c) /\
  map value (get_secret_archive_list e' name pin r2.2).1
    = map value (a0 :: rest).
Proof.
  intros Hl Hentry Hc Harch r1 r2.
  assert (Hr1 := restore_secret_eq e1 name pin 0 d secrets entry (a0 :: rest)
                   a0 c Hl Hentry Hc Harch ltac:(lia) eq_refl).
  fold r1 in Hr1. cbn [Z.to_nat take drop app] in Hr1.
  assert (Hl1 : forall e, (load_vault e pin r1.2).1
                          = Some (<[name := {| current := Some (value a0);
                                 last_update := Some (now e1);
                                 archive := Some ({| value := c;
                                   timestamp := default (now e1) (last_update entry) |}
                                   :: rest);
                                 deleted := deleted entry;
                                 deleted_date := deleted_date entry |}]> secrets)).
  { intros e. rewrite Hr1. cbn [snd]. apply load_save. }
  assert (Hr2 := restore_secret_eq e2 name pin 0 r1.2 _ _ _ _ _
                   (Hl1 e2) (lookup_insert_eq _ _ _) eq_refl eq_refl
                   ltac:(lia) eq_refl).
  fold r2 in Hr2. cbn [Z.to_nat take drop app value] in Hr2.
  assert (Hl2 : forall e, exists s2 en2,
             (load_vault e pin r2.2).1 = Some s2 /\ s2 !! name = Some en2 /\
             current en2 = Some c /\
             exists t, archive en2
                       = Some ({| value := value a0; timestamp := t |} :: rest)).
  { intros e. rewrite Hr2. cbn [snd]. rewrite load_save.
    eexists _, _. split; [reflexivity | ]. rewrite lookup_insert_eq.
    split; [reflexivity | ]. split; [reflexivity | ]. by eexists. }
  split; [by rewrite Hr1 | ]. split; [by rewrite Hr2 | ].
  split; [ | split].
  - rewrite get_secret_answer. cbn [fst]. rewrite Hl1. simpl.
    by rewrite lookup_insert_eq.
  - destruct (Hl2 e') as (s2 & en2 & Hs2 & Hen2 & Hc2 & _).
    rewrite get_secret_answer. cbn [fst]. rewrite Hs2. simpl.
    rewrite Hen2. unfold entry_answer.
    rewrite (current_truthy _ _ Hc2). simpl. by rewrite Hc2.
  - destruct (Hl2 e') as (s2 & en2 & Hs2 & Hen2 & Hc2 & t & Ha2).
    unfold get_secret_archive_list.
    destruct (load_vault e' pin r2.2) as [loaded d3]. simpl in Hs2.
    subst loaded. simpl. rewrite Hen2, (current_truthy _ _ Hc2), Ha2. done.
Qed.

End VaultMore.

Section VaultMoreInstances.

Import Py Vault.

(** An instance of X1 and X2 on the scenario's vault (current "v2",
    archive ["v1"]). *)
Lemma restore_secret_in_range_witness :
  (restore_secret env0 "A" "12345" 0 disk_v1_v2).1 = Ok true /\
  (get_secret env0 "A" "12345" false 0
     (restore_secret env0 "A" "12345" 0 disk_v1_v2).2).1 = Ok (Some "v1").
Proof.
  pose proof (@restore_secret_in_range SymbolicCrypto SymbolicLaws env0 env0
                "A" "12345" 0 disk_v1_v2
                (or_empty (load_vault env0 "12345" disk_v1_v2).1)
                {| current := Some "v2";
                   last_update := Some "2025-01-01T00:00:00";
                   archive := Some [{| value := "v1";
                                       timestamp := "2025-01-01T00:00:00" |}];
                   deleted := None; deleted_date := None |}
                [{| value := "v1"; timestamp := "2025-01-01T00:00:00" |}]
                {| value := "v1"; timestamp := "2025-01-01T00:00:00" |} "v2")
    as H.
  destruct H as [Hok Hload]; try (vm_compute; reflexivity); [lia | ].
  split; [exact Hok | ].
  rewrite get_secret_answer. cbn [fst]. rewrite Hload. vm_compute. reflexivity.
Defined.

Lemma restore_secret_too_large_witness :
  (restore_secret env0 "A" "12345" 1 disk_v1_v2).1 = Ok false /\
  vault_file (restore_secret env0 "A" "12345" 1 disk_v1_v2).2
    = vault_file disk_v1_v2.
Proof.
  apply (@restore_secret_too_large SymbolicCrypto env0
           "A" "12345" 1 disk_v1_v2).
  intros entry arch Hentry Harch. vm_compute in Hentry.
  injection Hentry as <-. injection Harch as <-. simpl. lia.
Defined.

Lemma salt_file_is_never_replaced_witness :
  salt_file (set_secret env0 "B" "w" "99999" disk_v1_v2)
    = Some "0123456789abcdef" /\
  vault_file (get_secret env0 "A" "12345" true 0 disk_v1_v2).2
    = vault_file disk_v1_v2.
Proof.
  destruct (@salt_file_is_never_replaced SymbolicCrypto env0 "B" "w" "99999"
              "11111" true false 0 ∅ disk_v1_v2 "0123456789abcdef" eq_refl)
    as [(_ & _ & Hset & _) _].
  destruct (@salt_file_is_never_replaced SymbolicCrypto env0 "A" "w" "12345"
              "11111" true false 0 ∅ disk_v1_v2 "0123456789abcdef" eq_refl)
    as [_ (_ & Hget & _)].
  split; [exact Hset | exact Hget].
Defined.

Lemma set_secret_touches_one_entry_witness :
  set_secret env0 "" "w" "12345" disk_v1_v2 = disk_v1_v2 /\
  exists secrets',
    (load_vault env0 "12345" (set_secret env0 "B" "w" "12345" disk_v1_v2)).1
      = Some secrets' /\
    secrets' !! "A" = or_empty (load_vault env0 "12345" disk_v1_v2).1 !! "A".
Proof.
  destruct (@set_secret_touches_one_entry SymbolicCrypto SymbolicLaws env0 env0
              "" "w" "12345" disk_v1_v2) as [Hbad _].
  destruct (@set_secret_touches_one_entry SymbolicCrypto SymbolicLaws env0 env0
              "B" "w" "12345" disk_v1_v2) as [_ Hok].
  split; [apply Hbad; by left | ].
  destruct (Hok ltac:(discriminate) ltac:(discriminate)
              (or_empty (load_vault env0 "12345" disk_v1_v2).1) eq_refl)
    as (secrets' & Hload & Hother).
  exists secrets'. split; [exact Hload | ]. apply Hother. discriminate.
Defined.

Lemma delete_secret_tombstone_witness :
  let r := delete_secret env0 "A" "12345" false disk_v1_v2 in
  r.1 = true /\
  (get_secret env0 "A" "12345" false 0 r.2).1 = Ok (Some "v2") /\
  (get_secret env0 "A" "12345" true 0 r.2).1 = Ok (Some "v1").
Proof.
  intros r. subst r.
  destruct (@delete_secret_tombstone_stays_readable SymbolicCrypto SymbolicLaws
              env0 env0 "A" "12345" disk_v1_v2
              (or_empty (load_vault env0 "12345" disk_v1_v2).1)
              {| current := Some "v2";
                 last_update := Some "2025-01-01T00:00:00";
                 archive := Some [{| value := "v1";
                                     timestamp := "2025-01-01T00:00:00" |}];
                 deleted := None; deleted_date := None |}
              eq_refl eq_refl) as (Hok & _ & Hsame).
  split; [exact Hok | ]. split.
  - rewrite (Hsame "A" false 0). vm_compute. reflexivity.
  - rewrite (Hsame "A" true 0). vm_compute. reflexivity.
Defined.

Lemma delete_secret_erase_witness :
  let r := delete_secret env0 "A" "12345" true disk_v1_v2 in
  r.1 = true /\
  (get_secret env0 "A" "12345" false 0 r.2).1 = Ok None /\
  (get_secret env0 "A" "12345" true 0 r.2).1 = Ok None.
Proof.
  intros r. subst r.
  destruct (@delete_secret_erase_removes_entry SymbolicCrypto SymbolicLaws
              env0 env0 "A" "12345" disk_v1_v2
              (or_empty (load_vault env0 "12345" disk_v1_v2).1)
              {| current := Some "v2";
                 last_update := Some "2025-01-01T00:00:00";
                 archive := Some [{| value := "v1";
                                     timestamp := "2025-01-01T00:00:00" |}];
                 deleted := None; deleted_date := None |}
              eq_refl eq_refl) as (Hok & _ & Hnone & _).
  split; [exact Hok | ]. split; apply Hnone.
Defined.



Lemma get_secret_archived_witness :
  (get_secret env0 "A" "12345" true 0 disk_v1_v2).1 = Ok (Some "v1") /\
  (get_secret env0 "A" "12345" true 1 disk_v1_v2).1 = Ok None.
Proof.
  pose proof (fun v => @get_secret_archived_by_version SymbolicCrypto env0
                "A" "12345" disk_v1_v2
                (or_empty (load_vault env0 "12345" disk_v1_v2).1)
                {| current := Some "v2";
                   last_update := Some "2025-01-01T00:00:00";
                   archive := Some [{| value := "v1";
                                       timestamp := "2025-01-01T00:00:00" |}];
                   deleted := None; deleted_date := None |}
                [{| value := "v1"; timestamp := "2025-01-01T00:00:00" |}] v
                eq_refl eq_refl eq_refl) as H.
  split; [apply (H 0); lia | apply (H 1); lia].
Defined.

Lemma restore_secret_twice_witness :
  let r1 := restore_secret env0 "A" "12345" 0 disk_v1_v2 in
  let r2 := restore_secret env0 "A" "12345" 0 r1.2 in
  (get_secret env0 "A" "12345" false 0 r1.2).1 = Ok (Some "v1") /\
  (get_secret env0 "A" "12345" false 0 r2.2).1 = Ok (Some "v2").
Proof.
  intros r1 r2. subst r1 r2.
  destruct (@restore_secret_twice_round_trip SymbolicCrypto SymbolicLaws
              env0 env0 env0 "A" "12345" disk_v1_v2
              (or_empty (load_vault env0 "12345" disk_v1_v2).1)
              {| current := Some "v2";
                 last_update := Some "2025-01-01T00:00:00";
                 archive := Some [{| value := "v1";
                                     timestamp := "2025-01-01T00:00:00" |}];
                 deleted := None; deleted_date := None |}
              "v2" {| value := "v1"; timestamp := "2025-01-01T00:00:00" |} []
              eq_refl eq_refl eq_refl eq_refl) as (_ & _ & H1 & H2 & _).
  split; [exact H1 | exact H2].
Defined.

End VaultMoreInstances.

(** ** task_manager.py: the retry helper and the heap *)

Section RetryFacts.

Import Py TaskQueue.

Context {A : Type}.

Lemma with_retry_loop_success (now : string) (task_fn : nat -> attempt A)
    (retries : Z) (a : A) (k : nat) :
  forall (first n : nat) (tr : RetryTrace),
    (forall i, (i < k)%nat -> exists err, task_fn (calls tr + i)%nat = Failed err) ->
    task_fn (calls tr + k)%nat = Returned a ->
    Z.of_nat (first + k) <= retries ->
    (k < n)%nat ->
    exists tr',
      with_retry_loop now task_fn retries (seq first n) tr = (RetryValue a, tr') /\
      calls tr' = (calls tr + k + 1)%nat /\ sleeps tr' = (sleeps tr + k)%nat.
Proof.
  induction k as [ | k IH]; intros first n tr Hfail Hok Hle Hn;
    destruct n as [ | n]; try lia; cbn [seq with_retry_loop].
  - rewrite Nat.add_0_r in Hok. rewrite Hok. eexists. split; [done | ].
    simpl. lia.
  - destruct (Hfail 0%nat ltac:(lia)) as [err Herr].
    rewrite Nat.add_0_r in Herr. rewrite Herr.
    destruct (Z.of_nat first <? retries) eqn:E; [ | lia].
    edestruct (IH (S first) n) as (tr' & Hrun & Hc & Hs);
      [ | | | | exists tr'; split; [exact Hrun | ]]; simpl.
    + intros i Hi. destruct (Hfail (S i) ltac:(lia)) as [err' Herr'].
      exists err'. rewrite <- Herr'. f_equal. lia.
    + rewrite <- Hok. f_equal. lia.
    + lia.
    + lia.
    + simpl in Hc, Hs. lia.
Qed.

Lemma with_retry_loop_exhausted (now : string) (task_fn : nat -> attempt A)
    (retries : Z) (last : string) (n : nat) :
  forall (first : nat) (tr : RetryTrace),
    (forall i, (i < S n)%nat -> exists err, task_fn (calls tr + i)%nat = Failed err) ->
    task_fn (calls tr + n)%nat = Failed last ->
    Z.of_nat (first + n) = retries ->
    exists tr',
      with_retry_loop now task_fn retries (seq first (S n)) tr
        = (RetryRaised last, tr') /\
      calls tr' = (calls tr + n + 1)%nat /\ sleeps tr' = (sleeps tr + n)%nat.
Proof.
  induction n as [ | n IH]; intros first tr Hfail Hlast Hret;
    cbn [seq with_retry_loop].
  - rewrite Nat.add_0_r in Hlast. rewrite Hlast.
    destruct (Z.of_nat first <? retries) eqn:E; [lia | ].
    eexists. split; [done | ]. simpl. lia.
  - destruct (Hfail 0%nat ltac:(lia)) as [err Herr].
    rewrite Nat.add_0_r in Herr. rewrite Herr.
    destruct (Z.of_nat first <? retries) eqn:E; [ | lia].
    edestruct (IH (S first)) as (tr' & Hrun & Hc & Hs);
      [ | | | exists tr'; split; [exact Hrun | ]]; simpl.
    + intros i Hi. destruct (Hfail (S i) ltac:(lia)) as [err' Herr'].
      exists err'. rewrite <- Herr'. f_equal. lia.
    + rewrite <- Hlast. f_equal. lia.
    + lia.
    + simpl in Hc, Hs. lia.
Qed.

(** X11.  [with_retry] returns the first success: when the first [k] calls
    of [task_fn] raise and the next one returns [a], with [k <= retries],
    [with_retry] returns [a] after exactly [k + 1] calls and [k] sleeps. *)
Theorem with_retry_returns_first_success (now : string)
    (task_fn : nat -> attempt A) (retries : Z) (a : A) (k : nat)
    (logs : Logger.LogStore) :
  (forall i, (i < k)%nat -> exists err, task_fn i = Failed err) ->
  task_fn k = Returned a ->
  Z.of_nat k <= retries ->
  exists tr,
    with_retry now task_fn retries (fresh_trace logs) = (RetryValue a, tr) /\
    calls tr = S k /\ sleeps tr = k.
Proof.
  intros Hfail Hok Hle. unfold with_retry.
  destruct (with_retry_loop_success now task_fn retries a k 0
              (Z.to_nat (retries + 1)) (fresh_trace logs))
    as (tr & Hrun & Hc & Hs); simpl; try done; try lia.
  exists tr. split; [exact Hrun | ]. simpl in Hc, Hs. lia.
Qed.

(** X12.  [with_retry] gives up after [retries + 1] calls: when [retries]
    is not negative and every one of the first [retries + 1] calls raises,
    it re-raises the last exception after exactly [retries + 1] calls and
    [retries] sleeps.  With a negative [retries] the loop body never runs:
    [task_fn] is not called and the function returns None. *)
Theorem with_retry_gives_up_after_retries (now : string)
    (task_fn : nat -> attempt A) (retries : Z) (logs : Logger.LogStore) :
  (0 <= retries ->
   forall last,
     (forall i, (Z.of_nat i <= retries) -> exists err, task_fn i = Failed err) ->
     task_fn (Z.to_nat retries) = Failed last ->
     exists tr,
       with_retry now task_fn retries (fresh_trace logs) = (RetryRaised last, tr) /\
       Z.of_nat (calls tr) = retries + 1 /\ Z.of_nat (sleeps tr) = retries) /\
  (retries < 0 ->
   with_retry now task_fn retries (fresh_trace logs)
   = (RetryNone, fresh_trace logs)).
Proof.
  split.
  - intros Hpos last Hfail Hlast. unfold with_retry.
    replace (Z.to_nat (retries + 1)) with (S (Z.to_nat retries)) by lia.
    destruct (with_retry_loop_exhausted now task_fn retries last
                (Z.to_nat retries) 0 (fresh_trace logs))
      as (tr & Hrun & Hc & Hs); simpl; try done; try lia.
    + intros i Hi. apply Hfail. lia.
    + exists tr. split; [exact Hrun | ]. simpl in Hc, Hs. lia.
  - intros Hneg. unfold with_retry.
    by replace (Z.to_nat (retries + 1)) with 0%nat by lia.
Qed.

End RetryFacts.

Section RetryInstances.

Import Py TaskQueue.

(** A task that fails twice and then returns 7, under the default
    [retries=2]. *)
Lemma with_retry_first_success_witness :
  exists tr,
    with_retry "t0"
      (fun n => if (n <? 2)%nat then Failed "timeout" else Returned 7%Z)
      2 (fresh_trace ∅) = (RetryValue 7%Z, tr) /\
    calls tr = 3%nat /\ sleeps tr = 2%nat.
Proof.
  apply (with_retry_returns_first_success "t0"
           (fun n => if (n <? 2)%nat then Failed "timeout" else Returned 7%Z)
           2 7%Z 2 ∅).
  - intros i Hi. exists "timeout". destruct i as [ | [ | i]]; [done | done | lia].
  - reflexivity.
  - lia.
Defined.

(** A task that always fails, under the default [retries=2]. *)
Lemma with_retry_gives_up_witness :
  exists tr,
    with_retry (A := Z) "t0" (fun _ => Failed "refused") 2 (fresh_trace ∅)
      = (RetryRaised "refused", tr) /\
    Z.of_nat (calls tr) = 3 /\ Z.of_nat (sleeps tr) = 2.
Proof.
  destruct (with_retry_gives_up_after_retries (A := Z) "t0"
              (fun _ => Failed "refused") 2 ∅) as [Hpos _].
  apply Hpos; [lia | by eexists | reflexivity].
Defined.

End RetryInstances.

Section HeapFacts.

Import Py TaskQueue.

Lemma parent_lt (i : nat) : (0 < i)%nat -> ((i - 1) / 2 < i)%nat.
Proof. intros Hi. apply Nat.Div0.div_lt_upper_bound. lia. Qed.

Lemma parent_children (i p : nat) :
  (0 < i)%nat ->
  ((i - 1) / 2)%nat = p <-> i = (2 * p + 1)%nat \/ i = (2 * p + 2)%nat.
Proof.
  intros Hi.
  pose proof (Nat.div_mod_eq (i - 1) 2) as Hdm.
  pose proof (Nat.mod_upper_bound (i - 1) 2 ltac:(lia)) as Hm.
  split.
  - intros <-. lia.
  - intros [-> | ->].
    + replace (2 * p + 1 - 1)%nat with (p * 2)%nat by lia.
      apply Nat.div_mul. lia.
    + replace (2 * p + 2 - 1)%nat with (1 + p * 2)%nat by lia.
      rewrite Nat.div_add by lia. reflexivity.
Qed.

(** Two entries at different positions of a list with distinct keys. *)
Lemma keys_differ (h : list item) (i j : nat) (a b : item) :
  NoDup h.*1 -> h !! i = Some a -> h !! j = Some b -> i <> j -> a.1 <> b.1.
Proof.
  intros Hnd Ha Hb Hij Heq. apply Hij.
  apply (NoDup_lookup (h.*1) i j a.1); [done | | ].
  - by rewrite list_lookup_fmap, Ha.
  - by rewrite list_lookup_fmap, Hb, Heq.
Qed.

Lemma item_lt_keys (a b : item) :
  a.1 <> b.1 -> item_lt a b = Ok (a.1 <? b.1).
Proof. intros Hne. unfold item_lt. by rewrite decide_False. Qed.

(** The root of a heap has the least key. *)
Lemma heap_ok_root_min (h : list item) (r : item) :
  heap_ok h -> h !! 0%nat = Some r -> forall y, y ∈ h -> r.1 <= y.1.
Proof.
  intros Hok Hr y Hy. apply list_elem_of_lookup in Hy as [i Hi].
  revert y Hi. induction i as [i IH] using lt_wf_ind. intros y Hi.
  destruct (decide (i = 0%nat)) as [-> | Hne].
  - rewrite Hr in Hi. injection Hi as <-. lia.
  - assert (Hlt : ((i - 1) / 2 < i)%nat) by (apply parent_lt; lia).
    destruct (lookup_lt_is_Some_2 h ((i - 1) / 2)%nat) as [p Hp].
    { apply lookup_lt_Some in Hi. lia. }
    specialize (IH _ Hlt p Hp).
    specialize (Hok i y p ltac:(lia) Hi Hp). lia.
Qed.

(** What is read after exchanging the entries at [pos] and [pp]. *)
Lemma lookup_swapped (hs : list item) (pos pp i : nat) (a b : item) :
  pos <> pp -> (pos < length hs)%nat -> (pp < length hs)%nat ->
  <[pp := a]> (<[pos := b]> hs) !! i
  = if decide (i = pp) then Some a
    else if decide (i = pos) then Some b else hs !! i.
Proof.
  intros Hne Hpos Hpp. destruct (decide (i = pp)) as [-> | Hipp].
  - apply list_lookup_insert_eq. by rewrite length_insert.
  - rewrite list_lookup_insert_ne by done.
    destruct (decide (i = pos)) as [-> | Hipos].
    + by apply list_lookup_insert_eq.
    + by rewrite list_lookup_insert_ne.
Qed.

(** The loop of [_siftdown] from position [pos] to the root: with distinct
    keys it raises nothing, it permutes the list that has [newitem] at
    [pos], and it ends on a heap. *)
Lemma _siftdown_loop_heap (fuel : nat) :
  forall (heap : list item) (pos : nat) (newitem : item),
    (pos <= fuel)%nat -> (pos < length heap)%nat ->
    NoDup (<[pos := newitem]> heap).*1 ->
    down_inv (<[pos := newitem]> heap) pos ->
    exists h',
      _siftdown_loop fuel heap 0 pos newitem = (h', Ok ()) /\
      h' ≡ₚ <[pos := newitem]> heap /\ heap_ok h'.
Proof.
  induction fuel as [ | fuel IH]; intros heap pos newitem Hfuel Hlen Hnd Hinv.
  - assert (pos = 0%nat) as -> by lia. cbn [_siftdown_loop].
    eexists. split; [done | ]. split; [done | ].
    intros i c p Hi Hc Hp. apply (proj1 Hinv i c p); [done | lia | done | done].
  - cbn [_siftdown_loop]. destruct (0 <? pos)%nat eqn:E.
    2: { apply Nat.ltb_ge in E. assert (pos = 0%nat) as -> by lia.
         eexists. split; [done | ]. split; [done | ].
         intros i c p Hi Hc Hp.
         apply (proj1 Hinv i c p); [done | lia | done | done]. }
    apply Nat.ltb_lt in E.
    set (hs := <[pos := newitem]> heap) in *.
    set (pp := ((pos - 1) / 2)%nat).
    assert (Hpp : (pp < pos)%nat) by (by apply parent_lt).
    destruct (lookup_lt_is_Some_2 heap pp ltac:(lia)) as [parent Hparent].
    rewrite Hparent.
    assert (Hhs_pos : hs !! pos = Some newitem)
      by (by apply list_lookup_insert_eq).
    assert (Hhs_pp : hs !! pp = Some parent).
    { unfold hs. rewrite list_lookup_insert_ne by lia. exact Hparent. }
    assert (Hlen_hs : length hs = length heap) by apply length_insert.
    rewrite item_lt_keys
      by (apply (keys_differ hs pos pp); [done | done | done | lia]).
    destruct (newitem.1 <? parent.1) eqn:Hlt.
    + assert (Hswap : <[pp := newitem]> (<[pos := parent]> heap)
                      = <[pp := newitem]> (<[pos := parent]> hs)).
      { unfold hs. by rewrite list_insert_insert_eq. }
      assert (Hperm : <[pp := newitem]> (<[pos := parent]> heap) ≡ₚ hs).
      { rewrite Hswap. by apply Permutation_insert_swap. }
      destruct (IH (<[pos := parent]> heap) pp newitem) as (h' & Hrun & Hp & Hok).
      * lia.
      * rewrite length_insert. lia.
      * by rewrite Hperm.
      * rewrite Hswap. split.
        -- intros i c p Hi Hipp.
           rewrite !(lookup_swapped hs pos pp) by lia.
           rewrite decide_False by done.
           assert (Hpari : ((i - 1) / 2 < i)%nat) by (by apply parent_lt).
           destruct (decide (i = pos)) as [-> | Hipos].
           ++ fold pp. rewrite decide_True by done.
              intros [= <-] [= <-]. lia.
           ++ intros Hc. destruct (decide (((i - 1) / 2)%nat = pp)) as [Hipar | Hipar].
              ** intros [= <-].
                 pose proof (proj1 Hinv i c parent Hi Hipos Hc) as Hedge.
                 rewrite Hipar in Hedge. specialize (Hedge Hhs_pp). lia.
              ** destruct (decide (((i - 1) / 2)%nat = pos)) as [Hich | Hich].
                 --- intros [= <-].
                     apply (proj2 Hinv i c parent E Hi Hich Hc Hhs_pp).
                 --- intros Hp. by apply (proj1 Hinv i c p).
        -- intros i c g Hpp0 Hi Hipar.
           rewrite !(lookup_swapped hs pos pp) by lia.
           assert (Hgp : ((pp - 1) / 2 < pp)%nat) by (by apply parent_lt).
           assert (Hpari : ((i - 1) / 2 < i)%nat) by (by apply parent_lt).
           rewrite (decide_False (P := i = pp)) by lia.
           rewrite (decide_False (P := ((pp - 1) / 2)%nat = pp)) by lia.
           rewrite (decide_False (P := ((pp - 1) / 2)%nat = pos)) by lia.
           intros Hc Hg.
           pose proof (proj1 Hinv pp parent g Hpp0 ltac:(lia) Hhs_pp Hg) as Hgpar.
           destruct (decide (i = pos)) as [-> | Hipos].
           ++ injection Hc as <-. exact Hgpar.
           ++ pose proof (proj1 Hinv i c parent Hi Hipos Hc) as Hedge.
              rewrite Hipar in Hedge. specialize (Hedge Hhs_pp). lia.
      * exists h'. split; [exact Hrun | ]. split; [ | exact Hok].
        by rewrite Hp.
    + eexists. split; [done | ]. split; [done | ].
      intros i c p Hi Hc Hp.
      destruct (decide (i = pos)) as [-> | Hipos].
      * fold pp in Hp. fold hs in Hc, Hp. rewrite Hhs_pos in Hc.
        rewrite Hhs_pp in Hp. injection Hc as <-. injection Hp as <-. lia.
      * by apply (proj1 Hinv i c p).
Qed.

(** [heappush] on a heap, with a key that is not in it. *)
Lemma heappush_heap (h : list item) (x : item) :
  heap_ok h -> NoDup (x :: h).*1 ->
  exists h', heappush h x = (h', Ok ()) /\ h' ≡ₚ x :: h /\ heap_ok h'.
Proof.
  intros Hok Hnd. unfold heappush, _siftdown.
  rewrite length_app. cbn [length].
  replace (length h + 1 - 1)%nat with (length h) by lia.
  assert (Hx : (h ++ [x]) !! length h = Some x).
  { rewrite lookup_app_r by lia. by rewrite Nat.sub_diag. }
  rewrite Hx.
  assert (Hid : <[length h := x]> (h ++ [x]) = h ++ [x])
    by (by apply list_insert_id).
  destruct (_siftdown_loop_heap (length h) (h ++ [x]) (length h) x)
    as (h' & Hrun & Hperm & Hok').
  - lia.
  - rewrite length_app. simpl. lia.
  - rewrite Hid. rewrite fmap_app. simpl.
    apply NoDup_app. simpl in Hnd. apply NoDup_cons in Hnd as [Hnin Hnd].
    split; [done | ]. split; [ | apply NoDup_singleton].
    intros k Hk Hk'. apply list_elem_of_singleton in Hk'. by subst k.
  - rewrite Hid. split.
    + intros i c p Hi Hne Hc Hp.
      assert (Hil : (i < length h)%nat).
      { apply lookup_lt_Some in Hc. rewrite length_app in Hc. simpl in Hc. lia. }
      pose proof (parent_lt i Hi).
      rewrite lookup_app_l in Hc by lia. rewrite lookup_app_l in Hp by lia.
      by apply (Hok i c p).
    + intros i c g _ Hi Hpar Hc.
      apply lookup_lt_Some in Hc. rewrite length_app in Hc. simpl in Hc.
      apply parent_children in Hpar; lia.
  - exists h'. split; [exact Hrun | ]. split; [ | exact Hok'].
    rewrite Hperm, Hid. by rewrite Permutation_app_comm.
Qed.

(** The loop of [_siftup] from position [pos] down to a leaf: with distinct
    keys it raises nothing and ends at a position without children. *)
Lemma _siftup_loop_heap (fuel : nat) :
  forall (heap : list item) (pos : nat) (newitem : item),
    (length heap - pos <= fuel)%nat -> (pos < length heap)%nat ->
    NoDup (<[pos := newitem]> heap).*1 ->
    up_inv heap pos ->
    exists h' pos',
      _siftup_loop fuel heap (length heap) pos = (h', Ok pos') /\
      length h' = length heap /\ (pos' < length heap)%nat /\
      (length heap <= 2 * pos' + 1)%nat /\
      up_inv h' pos' /\
      <[pos' := newitem]> h' ≡ₚ <[pos := newitem]> heap.
Proof.
  induction fuel as [ | fuel IH]; intros heap pos newitem Hfuel Hlen Hnd Hinv;
    [lia | ].
  cbn [_siftup_loop]. destruct (2 * pos + 1 <? length heap)%nat eqn:E.
  2: { apply Nat.ltb_ge in E. exists heap, pos. repeat split; try done.
       - apply Hinv.
       - apply Hinv. }
  apply Nat.ltb_lt in E.
  set (hs := <[pos := newitem]> heap) in *.
  destruct (lookup_lt_is_Some_2 heap (2 * pos + 1)%nat E) as [c Hc].
  assert (Hhs : forall i, i <> pos -> hs !! i = heap !! i).
  { intros i Hi. unfold hs. by rewrite list_lookup_insert_ne. }
  assert (Hhs_pos : hs !! pos = Some newitem)
    by (by apply list_lookup_insert_eq).
  assert (Hpar_l : ((2 * pos + 1 - 1) / 2)%nat = pos)
    by (apply parent_children; lia).
  assert (Hpar_r : ((2 * pos + 1 + 1 - 1) / 2)%nat = pos)
    by (apply parent_children; lia).
  (* the smaller child and what is known of it *)
  assert (Hsmall : exists cs s,
    (if (2 * pos + 1 + 1 <? length heap)%nat
     then match heap !! (2 * pos + 1)%nat, heap !! (2 * pos + 1 + 1)%nat with
          | Some c, Some r =>
              bind (item_lt c r)
                (fun b => Ok (if negb b then (2 * pos + 1 + 1)%nat
                              else (2 * pos + 1)%nat))
          | _, _ => Raise (IndexError "list index out of range")
          end
     else Ok (2 * pos + 1)%nat) = Ok cs /\
    heap !! cs = Some s /\ ((cs - 1) / 2)%nat = pos /\ (pos < cs)%nat /\
    forall i y, (0 < i)%nat -> ((i - 1) / 2)%nat = pos ->
                heap !! i = Some y -> s.1 <= y.1).
  { destruct (2 * pos + 1 + 1 <? length heap)%nat eqn:Er.
    - apply Nat.ltb_lt in Er.
      destruct (lookup_lt_is_Some_2 heap (2 * pos + 1 + 1)%nat Er) as [r Hr].
      rewrite Hc, Hr.
      rewrite item_lt_keys.
      2: { apply (keys_differ hs (2 * pos + 1) (2 * pos + 1 + 1));
             [done | | | lia]; rewrite Hhs by lia; done. }
      simpl. destruct (c.1 <? r.1) eqn:Hlt; simpl.
      + exists (2 * pos + 1)%nat, c. repeat split; try done; try lia.
        intros i y Hi Hpar Hy. apply parent_children in Hpar as [-> | ->]; [ | | done].
        * rewrite Hc in Hy. injection Hy as <-. lia.
        * replace (2 * pos + 2)%nat with (2 * pos + 1 + 1)%nat in Hy by lia.
          rewrite Hr in Hy. injection Hy as <-. lia.
      + exists (2 * pos + 1 + 1)%nat, r. repeat split; try done; try lia.
        intros i y Hi Hpar Hy. apply parent_children in Hpar as [-> | ->]; [ | | done].
        * rewrite Hc in Hy. injection Hy as <-. lia.
        * replace (2 * pos + 2)%nat with (2 * pos + 1 + 1)%nat in Hy by lia.
          rewrite Hr in Hy. injection Hy as <-. lia.
    - apply Nat.ltb_ge in Er.
      exists (2 * pos + 1)%nat, c. repeat split; try done; try lia.
      intros i y Hi Hpar Hy. apply parent_children in Hpar as [-> | ->]; [ | | done].
      + rewrite Hc in Hy. injection Hy as <-. lia.
      + apply lookup_lt_Some in Hy. lia. }
  destruct Hsmall as (cs & s & -> & Hs & Hcs_par & Hcs_gt & Hmin).
  rewrite Hs.
  assert (Hcs_len : (cs < length heap)%nat) by (by apply lookup_lt_Some in Hs).
  assert (Hswap : <[cs := newitem]> (<[pos := s]> heap)
                  = <[cs := newitem]> (<[pos := s]> hs)).
  { unfold hs. by rewrite list_insert_insert_eq. }
  assert (Hperm : <[cs := newitem]> (<[pos := s]> heap) ≡ₚ hs).
  { rewrite Hswap. apply Permutation_insert_swap; [done | ].
    rewrite Hhs by lia. done. }
  destruct (IH (<[pos := s]> heap) cs newitem)
    as (h' & pos' & Hrun & Hl' & Hpos' & Hleaf & Hinv' & Hperm').
  - rewrite length_insert. lia.
  - by rewrite length_insert.
  - by rewrite Hperm.
  - split.
    + intros i y p Hi Hics Hipar.
      assert (Hpari : ((i - 1) / 2 < i)%nat) by (by apply parent_lt).
      destruct (decide (i = pos)) as [-> | Hipos].
      * rewrite list_lookup_insert_eq by done.
        rewrite list_lookup_insert_ne by lia.
        intros [= <-] Hp.
        assert (Hp0 : (0 < pos)%nat) by lia.
        apply (proj2 Hinv cs s p Hp0 ltac:(lia) Hcs_par Hs Hp).
      * rewrite list_lookup_insert_ne by done. intros Hy.
        destruct (decide (((i - 1) / 2)%nat = pos)) as [Hich | Hich].
        -- rewrite Hich, list_lookup_insert_eq by done.
           intros [= <-]. by apply (Hmin i y).
        -- rewrite list_lookup_insert_ne by done. intros Hp.
           by apply (proj1 Hinv i y p).
    + intros i y g _ Hi Hipar.
      assert (Hpari : ((i - 1) / 2 < i)%nat) by (by apply parent_lt).
      rewrite list_lookup_insert_ne by lia.
      rewrite Hcs_par, list_lookup_insert_eq by done.
      intros Hy [= <-].
      pose proof (proj1 Hinv i y s Hi ltac:(lia) ltac:(lia) Hy) as Hedge.
      rewrite Hipar in Hedge. by apply Hedge.
  - rewrite length_insert in *.
    exists h', pos'. repeat split; try done; try apply Hinv'.
    by rewrite Hperm', Hperm.
Qed.

(** [_siftup] at the root of a list that is a heap below the root. *)
Lemma _siftup_heap (heap : list item) (newitem : item) :
  heap !! 0%nat = Some newitem -> NoDup heap.*1 -> up_inv heap 0 ->
  exists h', _siftup heap 0 = (h', Ok ()) /\ h' ≡ₚ heap /\ heap_ok h'.
Proof.
  intros H0 Hnd Hinv. unfold _siftup. rewrite H0.
  assert (Hlen : (0 < length heap)%nat) by (by apply lookup_lt_Some in H0).
  assert (Hid : <[0%nat := newitem]> heap = heap) by (by apply list_insert_id).
  destruct (_siftup_loop_heap (length heap) heap 0 newitem)
    as (h1 & pos' & Hrun & Hl1 & Hpos' & Hleaf & Hinv1 & Hperm1);
    [lia | done | by rewrite Hid | done | ].
  rewrite Hrun. rewrite Hid in Hperm1.
  unfold _siftdown. rewrite list_lookup_insert_eq by lia.
  assert (Hii : <[pos' := newitem]> (<[pos' := newitem]> h1)
                = <[pos' := newitem]> h1) by apply list_insert_insert_eq.
  destruct (_siftdown_loop_heap pos' (<[pos' := newitem]> h1) pos' newitem)
    as (h' & Hrun' & Hperm' & Hok').
  - lia.
  - rewrite length_insert. lia.
  - by rewrite Hii, Hperm1.
  - rewrite Hii. split.
    + intros i c p Hi Hne.
      assert (Hpari : ((i - 1) / 2 < i)%nat) by (by apply parent_lt).
      rewrite list_lookup_insert_ne by done. intros Hc.
      destruct (decide (((i - 1) / 2)%nat = pos')) as [Hich | Hich].
      * apply lookup_lt_Some in Hc. apply parent_children in Hich; lia.
      * rewrite list_lookup_insert_ne by done. intros Hp.
        by apply (proj1 Hinv1 i c p).
    + intros i c g _ Hi Hich.
      rewrite list_lookup_insert_ne
        by (pose proof (parent_lt i Hi); lia).
      intros Hc. apply lookup_lt_Some in Hc. apply parent_children in Hich; lia.
  - exists h'. split; [exact Hrun' | ]. split; [ | exact Hok'].
    by rewrite Hperm', Hii, Hperm1.
Qed.

(** [heappop] on a heap with distinct keys returns the root and leaves a
    heap of the other entries. *)
Lemma heappop_heap (root : item) (rest : list item) :
  heap_ok (root :: rest) -> NoDup (root :: rest).*1 ->
  exists h',
    heappop (root :: rest) = (h', Ok root) /\ h' ≡ₚ rest /\ heap_ok h'.
Proof.
  intros Hok Hnd. unfold heappop.
  destruct (decide (rest = [])) as [-> | Hne].
  { simpl. exists []. split; [done | ]. split; [done | ].
    intros i c p _ Hc. by rewrite lookup_nil in Hc. }
  destruct (proj1 (last_is_Some rest) Hne) as [lastelt Hlast]
    || destruct (last rest) as [lastelt | ] eqn:Hlast.
  all: try (apply last_None in Hlast; done).
  apply last_Some in Hlast as [h0 ->].
  assert (Hl : last (root :: h0 ++ [lastelt]) = Some lastelt).
  { change (root :: h0 ++ [lastelt]) with ((root :: h0) ++ [lastelt]).
    apply last_snoc. }
  assert (Hrl : removelast (root :: h0 ++ [lastelt]) = root :: h0).
  { change (root :: h0 ++ [lastelt]) with ((root :: h0) ++ [lastelt]).
    apply removelast_last. }
  rewrite Hl, Hrl. cbv zeta.
  change (<[0%nat := lastelt]> (root :: h0)) with (lastelt :: h0).
  assert (Hnd0 : NoDup (lastelt :: h0).*1).
  { simpl in Hnd. apply NoDup_cons in Hnd as [_ Hnd].
    rewrite fmap_app in Hnd. simpl in Hnd.
    assert (Hp : h0.*1 ++ [lastelt.1] ≡ₚ lastelt.1 :: h0.*1)
      by apply Permutation_app_comm.
    rewrite Hp in Hnd. exact Hnd. }
  destruct (_siftup_heap (lastelt :: h0) lastelt) as (h' & Hrun & Hperm & Hok');
    [done | done | | ].
  - split; [ | intros i c g Hlt; lia].
    intros i c p Hi _ Hpar Hc Hp.
    assert (Hpari : ((i - 1) / 2 < i)%nat) by (by apply parent_lt).
    destruct i as [ | i]; [lia | ]. simpl in Hc.
    destruct ((S i - 1) / 2)%nat as [ | j] eqn:Hj; [done | ]. simpl in Hp.
    apply (Hok (S i) c p); [lia | | ].
    + simpl. by apply lookup_app_l_Some.
    + rewrite Hj. simpl. by apply lookup_app_l_Some.
  - rewrite Hrun. exists h'. split; [done | ]. split; [ | exact Hok'].
    rewrite Hperm. apply Permutation_app_comm with (l := [lastelt]).
Qed.

End HeapFacts.

(* ===================================================================== *)
(** ** TaskManager: the queue stays a heap                                *)
(* ===================================================================== *)

Section QueueFacts.
Import TaskQueue.

(** [add_task] with a priority that is not queued yet. *)
Lemma add_task_heap (self : TaskManager) (a : string)
    (ps : option (gmap string string)) (p : Z) :
  heap_ok (queue self) -> NoDup (queue self).*1 ->
  - p ∉ (queue self).*1 ->
  exists q, add_task self a ps p = ({| queue := q |}, Ok ()) /\
            q ≡ₚ item_of (a, ps, p) :: queue self /\
            heap_ok q /\ NoDup q.*1.
Proof.
  intros Hok Hnd Hnin. unfold add_task. cbn [priority].
  destruct (heappush_heap (queue self) (item_of (a, ps, p)) Hok)
    as (q & Hrun & Hperm & Hok').
  { simpl. by apply NoDup_cons. }
  unfold item_of in Hrun. cbn [fst snd] in Hrun. rewrite Hrun.
  exists q. split; [done | ]. split; [exact Hperm | ]. split; [exact Hok' | ].
  rewrite Hperm. simpl. by apply NoDup_cons.
Qed.

(** [next_task] on a queue that is a heap with distinct keys. *)
Lemma next_task_heap (self : TaskManager) (root : item) (rest : list item) :
  queue self = root :: rest ->
  heap_ok (queue self) -> NoDup (queue self).*1 ->
  exists q, next_task self = ({| queue := q |}, Ok (Some root.2)) /\
            q ≡ₚ rest /\ heap_ok q /\ NoDup q.*1 /\
            Forall (fun it => root.1 < it.1) rest.
Proof.
  intros Hq Hok Hnd. unfold next_task. rewrite Hq in *.
  destruct (heappop_heap root rest Hok Hnd) as (q & Hrun & Hperm & Hok').
  rewrite Hrun. destruct root as [k t]. exists q.
  split; [done | ]. split; [exact Hperm | ]. split; [exact Hok' | ].
  split.
  - rewrite Hperm. simpl in Hnd. by apply NoDup_cons in Hnd as [_ Hnd].
  - apply Forall_forall. intros y Hy.
    assert (Hle : (k, t).1 <= y.1).
    { apply (heap_ok_root_min ((k, t) :: rest)); [done | done | ].
      by constructor. }
    apply list_elem_of_lookup in Hy as [i Hi].
    assert (Hne : (k, t).1 <> y.1).
    { apply (keys_differ ((k, t) :: rest) 0 (S i)); [done | done | done | lia]. }
    lia.
Qed.

(** [add_task] for each triple of [l], the priorities new and pairwise
    distinct. *)
Lemma add_tasks_heap (l : list (string * option (gmap string string) * Z)) :
  forall self,
    heap_ok (queue self) ->
    NoDup ((item_of <$> l) ++ queue self).*1 ->
    exists q, add_tasks l self = ({| queue := q |}, Ok ()) /\
              q ≡ₚ (item_of <$> l) ++ queue self /\
              heap_ok q /\ NoDup q.*1.
Proof.
  induction l as [ | [[a ps] p] l IH]; intros self Hok Hnd.
  - destruct self as [q]. exists q. by repeat split.
  - cbn [add_tasks]. rewrite fmap_cons in Hnd. simpl in Hnd.
    apply NoDup_cons in Hnd as [Hnin Hnd].
    destruct (add_task_heap self a ps p Hok) as (q1 & Hrun & Hperm & Hok1 & Hnd1).
    { rewrite fmap_app in Hnd. by apply NoDup_app in Hnd as (_ & _ & Hnd). }
    { intros Hin. apply Hnin. rewrite fmap_app. apply elem_of_app. by right. }
    rewrite Hrun.
    destruct (IH {| queue := q1 |} Hok1) as (q & Hrun' & Hperm' & Hok' & Hnd').
    { cbn [queue]. rewrite Hperm.
      rewrite <- Permutation_middle. rewrite fmap_cons.
      apply NoDup_cons. split; [ | done]. exact Hnin. }
    exists q. split; [exact Hrun' | ]. split; [ | done].
    cbn [queue] in Hperm'. rewrite Hperm', Hperm.
    rewrite fmap_cons. by rewrite <- Permutation_middle.
Qed.

(** As many calls of [next_task] as the queue has entries. *)
Lemma next_tasks_drain (n : nat) :
  forall self,
    length (queue self) = n ->
    heap_ok (queue self) -> NoDup (queue self).*1 ->
    exists its,
      its ≡ₚ queue self /\
      StronglySorted (fun a b : item => a.1 < b.1) its /\
      next_tasks n self = ((fun it : item => Ok (Some it.2)) <$> its, init).
Proof.
  induction n as [ | n IH]; intros [q] Hlen Hok Hnd; cbn [queue] in *.
  - destruct q; [ | done]. exists []. split; [done | ]. split; [constructor | done].
  - destruct q as [ | root rest]; [done | ].
    destruct (next_task_heap {| queue := root :: rest |} root rest eq_refl Hok Hnd)
      as (q1 & Hrun & Hperm & Hok1 & Hnd1 & Hmin).
    cbn [next_tasks]. rewrite Hrun.
    destruct (IH {| queue := q1 |}) as (its & Hp & Hsorted & Hrun'); [ | done | done | ].
    { cbn [queue]. rewrite Hperm. simpl in Hlen. lia. }
    rewrite Hrun'. exists (root :: its). cbn [queue] in Hp.
    split; [by rewrite Hp, Hperm | ]. split; [ | done].
    constructor; [done | ]. by rewrite Hp, Hperm.
Qed.

(** Keys ascending on the queue's tuples is priorities descending on the
    calls of [add_task]. *)
Lemma sorted_item_of (l : list (string * option (gmap string string) * Z)) :
  StronglySorted (fun a b : item => a.1 < b.1) (item_of <$> l) ->
  StronglySorted (fun a b : string * option (gmap string string) * Z =>
                    b.2 < a.2) l.
Proof.
  induction l as [ | x l IH]; [constructor | ].
  rewrite fmap_cons. intros Hs. apply StronglySorted_inv in Hs as [Hs Hall].
  constructor; [by apply IH | ].
  rewrite Forall_forall in Hall. apply Forall_forall. intros y Hy.
  assert (Hin : item_of y ∈ item_of <$> l).
  { apply list_elem_of_fmap. by exists y. }
  specialize (Hall _ Hin). unfold item_of in Hall. simpl in Hall. lia.
Qed.

Lemma NoDup_item_of_keys (l : list (string * option (gmap string string) * Z)) :
  NoDup l.*2 -> NoDup (item_of <$> l).*1.
Proof.
  intros Hnd. rewrite <- list_fmap_compose.
  assert (Heq : (fst ∘ item_of <$> l) = Z.opp <$> l.*2).
  { rewrite <- list_fmap_compose. by apply list_fmap_ext. }
  rewrite Heq. apply NoDup_fmap_2; [ | done].
  intros x y. lia.
Qed.

(** X13.  [TaskManager.add_task] keeps the queue a heap: on a queue that
    satisfies the heap invariant and holds pairwise distinct priorities, a
    call with a priority that is not queued yet raises nothing, adds exactly
    the new tuple, and leaves a queue with the same two properties. *)
Theorem add_task_keeps_the_heap (self : TaskManager) (a : string)
    (ps : option (gmap string string)) (p : Z) :
  heap_ok (queue self) -> NoDup (queue self).*1 ->
  - p ∉ (queue self).*1 ->
  exists self',
    add_task self a ps p = (self', Ok ()) /\
    queue self' ≡ₚ item_of (a, ps, p) :: queue self /\
    heap_ok (queue self') /\ NoDup (queue self').*1.
Proof.
  intros Hok Hnd Hnin.
  destruct (add_task_heap self a ps p Hok Hnd Hnin) as (q & H1 & H2 & H3 & H4).
  by exists {| queue := q |}.
Qed.

(** X14.  [TaskManager.next_task] on a non-empty queue that satisfies the
    heap invariant with pairwise distinct priorities: it raises nothing and
    returns a queued task whose [priority] argument of [add_task] was
    strictly greater than that of every task left in the queue; exactly that
    task is removed, and the queue is a heap again. *)
Theorem next_task_returns_greatest_priority (self : TaskManager) :
  has_tasks self = true ->
  heap_ok (queue self) -> NoDup (queue self).*1 ->
  exists self' k t,
    next_task self = (self', Ok (Some t)) /\
    queue self ≡ₚ (k, t) :: queue self' /\
    Forall (fun it : item => - it.1 < - k) (queue self') /\
    heap_ok (queue self') /\ NoDup (queue self').*1.
Proof.
  intros Hhas Hok Hnd. unfold has_tasks in Hhas.
  destruct (queue self) as [ | [k t] rest] eqn:Hq; [done | ].
  rewrite <- Hq in Hok, Hnd.
  destruct (next_task_heap self (k, t) rest Hq Hok Hnd)
    as (q & Hrun & Hperm & Hok' & Hnd' & Hmin).
  exists {| queue := q |}, k, t. cbn [queue]. split; [exact Hrun | ].
  split; [by rewrite Hperm | ]. split; [ | done].
  rewrite Hperm. eapply Forall_impl; [exact Hmin | ]. simpl. intros y. lia.
Qed.

(** X15.  Adding tasks with pairwise distinct priorities to a fresh
    [TaskManager] and then calling [next_task] once per task: no call
    raises, the calls return every added task exactly once, in strictly
    decreasing order of the [priority] argument (the largest number first),
    and the queue is empty afterwards. *)
Theorem add_then_drain_is_descending
    (l : list (string * option (gmap string string) * Z)) :
  NoDup l.*2 ->
  exists self l',
    add_tasks l init = (self, Ok ()) /\
    l' ≡ₚ l /\
    StronglySorted (fun a b : string * option (gmap string string) * Z =>
                      b.2 < a.2) l' /\
    next_tasks (length l) self
    = ((fun x => Ok (Some (item_of x).2)) <$> l', init) /\
    has_tasks init = false.
Proof.
  intros Hnd.
  destruct (add_tasks_heap l init) as (q & Hrun & Hperm & Hok & Hndq).
  { intros i c p _ Hc. change (queue init) with (@nil item) in Hc.
    by rewrite lookup_nil in Hc. }
  { change (queue init) with (@nil item). rewrite app_nil_r. by apply NoDup_item_of_keys. }
  change (queue init) with (@nil item) in Hperm. rewrite app_nil_r in Hperm.
  destruct (next_tasks_drain (length l) {| queue := q |})
    as (its & Hp & Hsorted & Hdrain); [ | done | done | ].
  { cbn [queue]. by rewrite Hperm, length_fmap. }
  cbn [queue] in Hp.
  assert (Hits : its ≡ₚ item_of <$> l) by (by rewrite Hp).
  apply Permutation_map_inv in Hits as (l' & -> & Hl').
  exists {| queue := q |}, l'. split; [exact Hrun | ].
  split; [by symmetry | ]. split; [by apply sorted_item_of | ].
  split; [ | done]. rewrite Hdrain. by rewrite <- list_fmap_compose.
Qed.

(** The queue after [add_task("a", priority=5)] and
    [add_task("b", priority=1)]. *)
Lemma queue_5_1_is_heap :
  heap_ok [item_of ("a", None, 5); item_of ("b", None, 1)] /\
  NoDup [item_of ("a", None, 5); item_of ("b", None, 1)].*1.
Proof.
  split.
  - intros i c p Hi Hc Hp.
    destruct i as [ | [ | i]]; [lia | | done].
    simpl in Hc, Hp. injection Hc as <-. injection Hp as <-. simpl. lia.
  - simpl. apply NoDup_cons. split; [ | apply NoDup_singleton].
    intros Hin. apply list_elem_of_singleton in Hin. done.
Qed.

(** A third task with priority 3 joins the two queued ones. *)
Lemma add_task_keeps_the_heap_witness :
  exists self',
    add_task {| queue := [item_of ("a", None, 5); item_of ("b", None, 1)] |}
      "c" None 3 = (self', Ok ()) /\
    queue self' ≡ₚ [item_of ("c", None, 3); item_of ("a", None, 5);
                    item_of ("b", None, 1)] /\
    heap_ok (queue self') /\ NoDup (queue self').*1.
Proof.
  apply (add_task_keeps_the_heap
           {| queue := [item_of ("a", None, 5); item_of ("b", None, 1)] |}
           "c" None 3).
  - apply queue_5_1_is_heap.
  - apply queue_5_1_is_heap.
  - simpl. intros Hin. apply elem_of_cons in Hin as [Hin | Hin]; [done | ].
    apply list_elem_of_singleton in Hin. done.
Defined.

(** The task added with priority 5 leaves before the one added with 1. *)
Lemma next_task_returns_greatest_priority_witness :
  exists self' k t,
    next_task {| queue := [item_of ("a", None, 5); item_of ("b", None, 1)] |}
      = (self', Ok (Some t)) /\
    [item_of ("a", None, 5); item_of ("b", None, 1)] ≡ₚ (k, t) :: queue self' /\
    Forall (fun it : item => - it.1 < - k) (queue self') /\
    heap_ok (queue self') /\ NoDup (queue self').*1.
Proof.
  apply (next_task_returns_greatest_priority
           {| queue := [item_of ("a", None, 5); item_of ("b", None, 1)] |}).
  - reflexivity.
  - apply queue_5_1_is_heap.
  - apply queue_5_1_is_heap.
Defined.

(** Priorities 5, 1 and 3, added in this order. *)
Lemma add_then_drain_is_descending_witness :
  exists self l',
    add_tasks [("a", None, 5); ("b", None, 1); ("c", None, 3)] init
      = (self, Ok ()) /\
    l' ≡ₚ [("a", None, 5); ("b", None, 1); ("c", None, 3)] /\
    StronglySorted (fun a b : string * option (gmap string string) * Z =>
                      b.2 < a.2) l' /\
    next_tasks 3 self = ((fun x => Ok (Some (item_of x).2)) <$> l', init) /\
    has_tasks init = false.
Proof.
  apply (add_then_drain_is_descending
           [("a", None, 5); ("b", None, 1); ("c", None, 3)]).
  simpl. apply (bool_decide_unpack _). vm_compute. exact I.
Defined.

End QueueFacts.

(* ===================================================================== *)
(** ** The handlers: approval, clean-up and what is never started         *)
(* ===================================================================== *)

Section HandlerMore.

Import Py Logger Handlers.

Lemma length_append (s t : string) :
  String.length (s +:+ t) = (String.length s + String.length t)%nat.
Proof. induction s as [ | c s IH]; simpl; [done | by rewrite IH]. Qed.

(** A backup's name is never the name of its original. *)
Lemma backup_name_differs (p ts : string) : p +:+ ".bak." +:+ ts <> p.
Proof.
  intros Heq. apply (f_equal String.length) in Heq.
  rewrite !length_append in Heq. simpl in Heq. lia.
Qed.

(** The payload the propose step of the file handler stores. *)
Lemma edit_or_create_file_pending (e : Env) (args : Files.Args)
    (ss : SessionState) (w : World) :
  let abs_path := abspath e (Files.path args) in
  let bpath := abs_path +:+ ".bak." +:+ get_timestamp e in
  startswith abs_path (user_home e) = true ->
  pending_file_change (Files.edit_or_create_file e args ss w).1.2
  = Some {| fc_abs_path := abs_path;
            fc_content := default "" (Files.content args);
            fc_op_type :=
              if fs w !! abs_path is Some _ then "edit" else "create";
            fc_backup_path :=
              if fs w !! abs_path is Some _ then Some bpath else None;
            fc_temp_path := mkstemp e |}.
Proof.
  intros abs_path bpath Hhome.
  unfold Files.edit_or_create_file. fold abs_path. rewrite Hhome. simpl.
  unfold Files.backup_file. fold bpath.
  destruct (fs w !! abs_path) as [old | ] eqn:Hold; simpl;
    repeat case_bool_decide;
    repeat match goal with
           | |- context [Files.show_diff ?e ?a ?b ?w] =>
               destruct (Files.show_diff e a b w)
           end; simpl in *; congruence.
Qed.

Lemma remove_temp_fs (e : Env) (tmp : string) (w : World) :
  fs (Files.remove_temp e tmp w) = delete tmp (fs w).
Proof.
  unfold Files.remove_temp. destruct (fs w !! tmp) eqn:H; simpl; [done | ].
  symmetry. by apply delete_id.
Qed.

(** What the resolve step of the file handler does with a stored payload. *)
Lemma handle_pending_file_change_effect (e : Env) (msg : string)
    (ss : SessionState) (w : World) (pc : FileChange) :
  pending_file_change ss = Some pc ->
  let r := Files.handle_pending_file_change e msg ss w in
  r.1.2 = set_pending_file_change None ss /\
  procs r.2 = procs w /\
  fs r.2 = delete (fc_temp_path pc)
             (if (global_approval ss || Files.is_affirmative msg)
                 && bool_decide (open_w_error e (fc_abs_path pc) = None)
              then <[fc_abs_path pc := fc_content pc]> (fs w)
              else fs w).
Proof.
  intros Hpc r. subst r. unfold Files.handle_pending_file_change.
  rewrite Hpc.
  destruct (global_approval ss || Files.is_affirmative msg); simpl;
    [destruct (open_w_error e (fc_abs_path pc)) eqn:Hopen; simpl | ];
    rewrite ?remove_temp_procs, ?remove_temp_fs; done.
Qed.

(** X16.  A proposed file change that is approved (by the message or by
    global approval) and whose write succeeds: the target holds the new
    content, a target that existed is kept under its backup name with the
    content it had, the staged temporary file is gone, every other file is
    as it was, the pending slot is empty and no process was started. *)
Theorem propose_then_approve_writes_target (e1 e2 : Env) (msg : string)
    (args : Files.Args) (ss : SessionState) (w : World) :
  let abs_path := abspath e1 (Files.path args) in
  let bpath := abs_path +:+ ".bak." +:+ get_timestamp e1 in
  let p := Files.edit_or_create_file e1 args ss w in
  let r := Files.handle_pending_file_change e2 msg p.1.2 p.2 in
  startswith abs_path (user_home e1) = true ->
  global_approval ss || Files.is_affirmative msg = true ->
  open_w_error e2 abs_path = None ->
  fs w !! mkstemp e1 = None -> mkstemp e1 <> bpath -> mkstemp e1 <> abs_path ->
  r.1.2 = set_pending_file_change None ss /\
  procs r.2 = procs w /\
  fs r.2 !! abs_path = Some (default "" (Files.content args)) /\
  (forall old, fs w !! abs_path = Some old -> fs r.2 !! bpath = Some old) /\
  fs r.2 !! mkstemp e1 = None /\
  (forall q, q <> abs_path -> q <> bpath -> fs r.2 !! q = fs w !! q).
Proof.
  intros abs_path bpath p r Hhome Happ Hopen Hfresh Hnb Hna.
  pose proof (edit_or_create_file_pending e1 args ss w Hhome) as Hpc.
  destruct (edit_or_create_file_effect e1 args ss w Hhome)
    as ((pc0 & Hss & _) & Hprocs & Hfs).
  fold p in Hpc, Hss, Hprocs, Hfs. fold abs_path bpath in Hpc, Hfs.
  destruct (handle_pending_file_change_effect e2 msg p.1.2 p.2 _ Hpc)
    as (Hss' & Hprocs' & Hfs').
  fold r in Hss', Hprocs', Hfs'. cbn [fc_temp_path fc_abs_path fc_content] in Hfs'.
  assert (Hga : global_approval p.1.2 = global_approval ss)
    by (by rewrite Hss).
  rewrite Hga, Happ, Hopen in Hfs'.
  rewrite bool_decide_eq_true_2 in Hfs' by done. cbn [andb] in Hfs'.
  assert (Hbne : bpath <> abs_path) by apply backup_name_differs.
  split. { rewrite Hss', Hss. by destruct ss. }
  split. { by rewrite Hprocs', Hprocs. }
  rewrite Hfs', Hfs.
  split. { rewrite lookup_delete_ne by done. by rewrite lookup_insert_eq. }
  split.
  { intros old Hold. rewrite Hold.
    rewrite lookup_delete_ne by done.
    rewrite lookup_insert_ne by done. rewrite lookup_insert_ne by done.
    by rewrite lookup_insert_eq. }
  split. { by rewrite lookup_delete_eq. }
  intros q Hqa Hqb.
  destruct (decide (q = mkstemp e1)) as [-> | Hqt].
  - by rewrite lookup_delete_eq.
  - rewrite lookup_delete_ne by done.
    rewrite lookup_insert_ne by done. rewrite lookup_insert_ne by done.
    destruct (fs w !! abs_path); [ | done]. by rewrite lookup_insert_ne.
Qed.



(** X19.  [read_any_file] only reads: the session state, the files and the
    processes are as before, and the log gains one record. *)
Theorem read_any_file_only_reads (e : Env) (args : Files.Args)
    (ss : SessionState) (w : World) :
  let abs_path := abspath e (Files.path args) in
  let r := Files.read_any_file e args ss w in
  r.1.2 = ss /\ fs r.2 = fs w /\ procs r.2 = procs w /\
  (startswith abs_path (user_home e) = true ->
     r.1.1 = match fs w !! abs_path with
             | Some c => c
             | None => "Error: " +:+ enoent abs_path
             end /\
     exists rec,
       events r.2 = <[log_path Files.logger :=
                        default [] (events w !! log_path Files.logger) ++ [rec]]>
                      (events w) /\
       dict_get "abs_path" (data rec) = Some (VStr "[MASKED]")).
Proof.
  intros abs_path r. subst r. unfold Files.read_any_file. fold abs_path.
  destruct (startswith abs_path (user_home e)); simpl.
  - destruct (fs w !! abs_path); simpl;
      (split; [done | ]); (split; [done | ]); (split; [done | ]);
      intros _; (split; [done | ]); eexists; split; reflexivity.
  - by repeat (split; [done | ]).
Qed.

(** X20.  No denylisted command is ever started through the shell
    handlers: if no denylisted command waits for approval, then neither
    [run_shell_command] nor [handle_pending_shell_cmd] stores one, and each
    starts at most one process, for a command that mentions no denylisted
    substring; under every message and with global approval on or off. *)
Theorem shell_steps_never_start_denylisted (e : Env) (args : Shell.Args)
    (msg : string) (ss : SessionState) (w : World) :
  pending_not_blocked ss ->
  let p := Shell.run_shell_command e args ss w in
  let r := Shell.handle_pending_shell_cmd e msg ss w in
  pending_not_blocked p.1.2 /\ started_not_blocked (procs w) (procs p.2) /\
  pending_not_blocked r.1.2 /\ started_not_blocked (procs w) (procs r.2).
Proof.
  intros Hinv p r. subst p r. split; [ | split; [ | split]].
  - unfold Shell.run_shell_command.
    destruct (Shell.is_blocked _) eqn:Hb; simpl; [done | ].
    destruct (Shell.is_safe _) eqn:Hs; simpl.
    + by destruct (run_proc e _ w) as [[so se | err] w1].
    + intros c d [= <- <-]. exact Hb.
  - unfold Shell.run_shell_command.
    destruct (Shell.is_blocked _) eqn:Hb; simpl; [by left | ].
    destruct (Shell.is_safe _) eqn:Hs; simpl; [ | by left].
    right. exists (default "" (Shell.cmd args)),
             (default (user_home e) (Shell.cwd args)).
    split; [exact Hb | ].
    rewrite <- (run_proc_procs e).
    by destruct (run_proc e _ w) as [[so se | err] w1].
  - unfold Shell.handle_pending_shell_cmd.
    destruct (pending_shell_cmd ss) as [[c d] | ] eqn:Hp; [ | done].
    assert (Hnone : pending_not_blocked (set_pending_shell_cmd None ss))
      by (by intros c' d').
    destruct (_ || _); simpl; [ | done].
    by destruct (run_proc e _ w) as [[so se | err] w1].
  - unfold Shell.handle_pending_shell_cmd.
    destruct (pending_shell_cmd ss) as [[c d] | ] eqn:Hp; [ | by left].
    destruct (_ || _); simpl; [ | by left].
    right. exists c, d. split; [by apply (Hinv c d) | ].
    rewrite <- (run_proc_procs e).
    by destruct (run_proc e _ w) as [[so se | err] w1].
Qed.

(** The approval words are in lower case. *)
Lemma shell_affirm_lower (word : string) :
  word ∈ Shell.affirm -> lower word = word.
Proof.
  unfold Shell.affirm. intros Hin.
  repeat (apply elem_of_cons in Hin as [-> | Hin]; [reflexivity | ]).
  by apply elem_of_nil in Hin.
Qed.

Lemma shell_is_affirmative_substring (pre word post : string) :
  word ∈ Shell.affirm -> Shell.is_affirmative (pre +:+ word +:+ post) = true.
Proof.
  intros Hin. unfold Shell.is_affirmative, any_in.
  apply existsb_elem_of. exists word. split; [done | ].
  apply contains_spec. exists (lower pre), (lower post).
  by rewrite !lower_app, (shell_affirm_lower word Hin).
Qed.

(** X21.  Approval is a substring test: a message that contains one of the
    shell handlers' approval words anywhere, inside another word or after
    a negation, approves.  The pending shell command is then run, by the
    one [subprocess.run] call for it, and the slot is emptied. *)
Theorem approval_is_a_substring_test (e : Env) (pre word post : string)
    (ss : SessionState) (w : World) (c d : string) :
  word ∈ Shell.affirm ->
  pending_shell_cmd ss = Some (c, d) ->
  let r := Shell.handle_pending_shell_cmd e (pre +:+ word +:+ post) ss w in
  r.1.2 = set_pending_shell_cmd None ss /\
  procs r.2 = procs w ++ [Shell.shell_invocation c d].
Proof.
  intros Hin Hp r. subst r. unfold Shell.handle_pending_shell_cmd.
  rewrite Hp, (shell_is_affirmative_substring pre word post Hin).
  rewrite orb_true_r. rewrite <- (run_proc_procs e).
  by destruct (run_proc e _ w) as [[so se | err] w1].
Qed.


(** The edit of the small session, approved with "yes". *)
Lemma propose_then_approve_witness :
  let r := edit_then_resolve env1 edit_notes "yes" ss0 w0 in
  r.1.2 = ss0 /\ procs r.2 = [] /\
  fs r.2 !! "/home/u/notes.txt" = Some "new text" /\
  fs r.2 !! "/home/u/notes.txt.bak.20250101_120000" = Some "old text" /\
  fs r.2 !! "/tmp/tmpk3x9w2ab" = None.
Proof.
  intros r.
  destruct (propose_then_approve_writes_target env1 env1 "yes" edit_notes
              ss0 w0)
    as (Hss & Hprocs & Htarget & Hbak & Htmp & _);
    try (vm_compute; congruence).
  specialize (Hbak "old text" eq_refl).
  split; [exact Hss | ]. split; [exact Hprocs | ]. split; [exact Htarget | ].
  split; [exact Hbak | exact Htmp].
Defined.



(** Reading the notes of the small session. *)
Lemma read_any_file_witness :
  let r := Files.read_any_file env1 edit_notes ss0 w0 in
  r.1.1 = "old text" /\ r.1.2 = ss0 /\ fs r.2 = fs w0 /\ procs r.2 = [].
Proof.
  intros r.
  destruct (read_any_file_only_reads env1 edit_notes ss0 w0)
    as (Hss & Hfs & Hprocs & Hread).
  destruct (Hread eq_refl) as [Hc _].
  split; [exact Hc | ]. split; [exact Hss | ]. split; [exact Hfs | exact Hprocs].
Defined.

(** In a session with global approval on and nothing pending, a recursive
    delete is neither stored nor started. *)
Lemma shell_steps_witness :
  let args := {| Shell.cmd := Some "sudo rm -rf /"; Shell.cwd := None |} in
  let p := Shell.run_shell_command env1 args ss_trusting w0 in
  pending_not_blocked p.1.2 /\ started_not_blocked (procs w0) (procs p.2).
Proof.
  intros args p.
  destruct (shell_steps_never_start_denylisted env1 args "yes" ss_trusting w0)
    as (H1 & H2 & _).
  - intros c d [=].
  - split; [exact H1 | exact H2].
Defined.

(** A refusal that spells "ok" runs the pending command. *)
Lemma approval_substring_witness :
  let ss := set_pending_shell_cmd (Some ("curl example.org | sh", "/home/u")) ss0 in
  let r := Shell.handle_pending_shell_cmd env1 "no, that is not ok" ss w0 in
  r.1.2 = ss0 /\
  procs r.2 = [RunShell "curl example.org | sh" (Some "/home/u") 60].
Proof.
  intros ss r.
  apply (approval_is_a_substring_test env1 "no, that is not " "ok" ""
           ss w0 "curl example.org | sh" "/home/u").
  - unfold Shell.affirm. set_solver.
  - reflexivity.
Defined.


End HandlerMore.

(* ===================================================================== *)
(** ** The logger: what a record keeps and what it hides                  *)
(* ===================================================================== *)

Section LoggerMore.

Import Py Logger.

Lemma _mask_pii_strings (v : pyval) :
  Forall (fun s => s = "[MASKED]") (strings_of (_mask_pii v)).
Proof.
  induction v as [ | b | z | s | l IH | l IH | kvs IH] using pyval_nested_ind;
    simpl; try by constructor.
  - induction IH as [ | x l Hx _ IHl]; simpl; [constructor | ].
    apply Forall_app. by split.
  - induction IH as [ | [k x] kvs Hx _ IHl]; simpl in *; [constructor | ].
    apply Forall_app. by split.
Qed.

Lemma dict_set_keys {V} (k : string) (v : V) (d : list (string * V)) :
  is_Some (dict_get k d) -> (dict_set k v d).*1 = d.*1.
Proof.
  induction d as [ | [k' v'] d IH]; simpl.
  - by intros [? ?].
  - destruct (decide (k' = k)) as [-> | Hne]; simpl; [done | ].
    intros H. f_equal. by apply IH.
Qed.

Lemma mask_field_keys (d : list (string * pyval)) (f : string) :
  (mask_field d f).*1 = d.*1.
Proof.
  unfold mask_field. destruct (dict_get f d) eqn:E; [ | done].
  apply dict_set_keys. by rewrite E.
Qed.

Lemma mask_fields_keys (fields : list string) (d : list (string * pyval)) :
  (mask_fields fields d).*1 = d.*1.
Proof.
  revert d. induction fields as [ | f fields IH]; intros d; [done | ].
  unfold mask_fields in *. simpl. by rewrite IH, mask_field_keys.
Qed.

(** X23.  A masked value holds no string of the original: every string in
    [_mask_pii(v)] is the placeholder, at any depth and also for the values
    outside JSON (a tuple is stored as None); the keys of a dict are kept
    as they are, in their order; and masking twice is masking once. *)
Theorem mask_pii_hides_every_string (v : pyval) :
  Forall (fun s => s = "[MASKED]") (strings_of (_mask_pii v)) /\
  _mask_pii (_mask_pii v) = _mask_pii v /\
  (forall kvs, v = VDict kvs ->
     exists kvs', _mask_pii v = VDict kvs' /\ kvs'.*1 = kvs.*1).
Proof.
  split; [apply _mask_pii_strings | ]. split; [apply _mask_pii_idem | ].
  intros kvs ->. simpl. eexists. split; [reflexivity | ].
  induction kvs as [ | [k x] kvs IH]; simpl; [done | ]. f_equal. exact IH.
Qed.

(** X24.  The record [log] writes has the keys of the data it was given, in
    the order given: masking replaces values in place and adds or drops no
    field, whatever fields are configured; the record carries the event
    type and the two version strings, and no log file but the logger's own
    changes. *)
Theorem log_keeps_keys_and_order (lg : RagisLogger) (now ev : string)
    (d : list (string * pyval)) (logs : LogStore) :
  let r := make_record lg now ev d in
  (data r).*1 = d.*1 /\
  event_type r = ev /\ ts r = now /\
  system_version r = "1.0.0" /\ tagging_version r = "1.0.0" /\
  (forall p, p <> log_path lg -> log lg now ev d logs !! p = logs !! p).
Proof.
  intros r. subst r. simpl. split; [apply mask_fields_keys | ].
  repeat (split; [done | ]).
  intros p Hp. unfold log, _write. by rewrite lookup_insert_ne.
Qed.

(** X25.  [log_batch_storage] writes one "memory_store" record per triple
    that [zip] forms, so as many as the shortest of the three lists is
    long, appended in order to the logger's file, each with the four keys
    of [log_storage_event] and its own time stamp; the entries longer lists
    have beyond that are dropped without a record, and no other log file
    changes. *)
Theorem log_batch_storage_stops_at_shortest (lg : RagisLogger)
    (clock : nat -> string) (doc_ids session_ids metadatas : list pyval)
    (experiment : pyval) (logs : LogStore) :
  exists recs,
    default [] (log_batch_storage lg clock doc_ids session_ids metadatas
                  experiment logs !! log_path lg)
    = default [] (logs !! log_path lg) ++ recs /\
    length recs
    = Nat.min (Nat.min (length doc_ids) (length session_ids))
              (length metadatas) /\
    (forall k r, recs !! k = Some r ->
       ts r = clock k /\ event_type r = "memory_store" /\
       (data r).*1 = ["doc_id"; "session_id"; "metadata"; "experiment"]) /\
    (forall p, p <> log_path lg ->
       log_batch_storage lg clock doc_ids session_ids metadatas experiment
         logs !! p = logs !! p).
Proof.
  revert session_ids metadatas clock logs.
  induction doc_ids as [ | d ds IH]; intros ss ms clock logs.
  { exists []. simpl. rewrite app_nil_r. split; [done | ].
    split; [lia | ].
    split; [intros k r Hk; by rewrite lookup_nil in Hk | done]. }
  destruct ss as [ | s ss].
  { exists []. simpl. rewrite app_nil_r. split; [done | ].
    split; [lia | ].
    split; [intros k r Hk; by rewrite lookup_nil in Hk | done]. }
  destruct ms as [ | m ms].
  { exists []. simpl. rewrite app_nil_r. split; [done | ].
    split; [lia | ].
    split; [intros k r Hk; by rewrite lookup_nil in Hk | done]. }
  cbn [log_batch_storage].
  set (logs1 := log_storage_event lg (clock 0%nat) d s m experiment logs).
  destruct (IH ss ms (fun k => clock (S k)) logs1)
    as (recs & Hrecs & Hlen & Hall & Hother).
  set (r0 := make_record lg (clock 0%nat) "memory_store"
               [("doc_id", d); ("session_id", s); ("metadata", m);
                ("experiment", experiment)]).
  assert (H1 : logs1 !! log_path lg
               = Some (default [] (logs !! log_path lg) ++ [r0])).
  { unfold logs1, log_storage_event, log, _write. by rewrite lookup_insert_eq. }
  exists (r0 :: recs). split; [ | split; [ | split]].
  - rewrite Hrecs, H1. simpl. by rewrite <- app_assoc.
  - simpl. rewrite Hlen. lia.
  - intros [ | k] r Hk; simpl in Hk.
    + injection Hk as <-. unfold r0. simpl.
      repeat split. apply mask_fields_keys.
    + by apply Hall.
  - intros p Hp. rewrite Hother by done.
    unfold logs1, log_storage_event, log, _write. by rewrite lookup_insert_ne.
Qed.

Lemma rotated_name_differs (p ts_str : string) : p +:+ "." +:+ ts_str <> p.
Proof.
  intros Heq. apply (f_equal String.length) in Heq.
  rewrite !length_append in Heq. simpl in Heq. lia.
Qed.

(** X26.  [rotate_log] moves the records, it drops none: the records of
    the logger's file are found under the rotated name, the logger's own
    path is free, and the next [log] starts a file with one record there.
    Files other than these two are as they were, and rotating a log that
    does not exist changes nothing. *)
Theorem rotate_log_then_log_starts_fresh (lg : RagisLogger)
    (ts_str now ev : string) (d : list (string * pyval)) (logs : LogStore) :
  let new_path := log_path lg +:+ "." +:+ ts_str in
  let rotated := rotate_log lg ts_str logs in
  (logs !! log_path lg = None -> rotated = logs) /\
  (forall recs, logs !! log_path lg = Some recs ->
     rotated !! new_path = Some recs /\
     rotated !! log_path lg = None /\
     log lg now ev d rotated !! new_path = Some recs /\
     log lg now ev d rotated !! log_path lg = Some [make_record lg now ev d] /\
     (forall p, p <> log_path lg -> p <> new_path ->
        log lg now ev d rotated !! p = logs !! p)).
Proof.
  intros new_path rotated. subst rotated. unfold rotate_log. split.
  - by intros ->.
  - intros recs ->. fold new_path.
    assert (Hne : new_path <> log_path lg) by apply rotated_name_differs.
    assert (Hfree : <[new_path := recs]> (delete (log_path lg) logs)
                      !! log_path lg = None).
    { rewrite lookup_insert_ne by done. by rewrite lookup_delete_eq. }
    split; [by rewrite lookup_insert_eq | ]. split; [exact Hfree | ].
    unfold log, _write. rewrite Hfree. simpl.
    split; [ | split].
    + rewrite lookup_insert_ne by done. by rewrite lookup_insert_eq.
    + by rewrite lookup_insert_eq.
    + intros p Hp Hp'. rewrite !lookup_insert_ne by done.
      by rewrite lookup_delete_ne.
Qed.

(** A log of one record, rotated, then written to again. *)
Lemma rotate_log_witness :
  let lg := {| log_path := "ragis_events.log"; pii_mask_fields := [] |} in
  let logs := log lg "t0" "start" [] ∅ in
  let logs' := log lg "t1" "next" [] (rotate_log lg "20250101_120000" logs) in
  logs' !! "ragis_events.log.20250101_120000"
    = Some [make_record lg "t0" "start" []] /\
  logs' !! "ragis_events.log" = Some [make_record lg "t1" "next" []].
Proof.
  intros lg logs logs'.
  destruct (rotate_log_then_log_starts_fresh lg "20250101_120000" "t1" "next"
              [] logs) as [_ H].
  destruct (H [make_record lg "t0" "start" []]) as (_ & _ & H1 & H2 & _).
  - reflexivity.
  - split; [exact H1 | exact H2].
Defined.

(** A nested value: the name is hidden, the keys stay. *)
Lemma mask_pii_witness :
  exists kvs',
    _mask_pii (VDict [("name", VStr "Ann"); ("tags", VList [VStr "a"; VInt 1])])
    = VDict kvs' /\ kvs'.*1 = ["name"; "tags"].
Proof.
  destruct (mask_pii_hides_every_string
              (VDict [("name", VStr "Ann"); ("tags", VList [VStr "a"; VInt 1])]))
    as (_ & _ & H).
  apply (H [("name", VStr "Ann"); ("tags", VList [VStr "a"; VInt 1])]).
  reflexivity.
Defined.

(** The shell logger writes to its own file only. *)
Lemma log_keeps_keys_witness :
  let lg := {| log_path := "ragis_events.log";
               pii_mask_fields := ["cmd"; "cwd"; "package"] |} in
  let d := [("action", VStr "RUN_SHELL"); ("cwd", VStr "/home/u");
            ("cmd", VStr "ls -la")] in
  (data (make_record lg "t0" "run_shell" d)).*1 = ["action"; "cwd"; "cmd"] /\
  log lg "t0" "run_shell" d ∅ !! "audit.log" = None.
Proof.
  intros lg d.
  destruct (log_keeps_keys_and_order lg "t0" "run_shell" d ∅)
    as (Hkeys & _ & _ & _ & _ & Hother).
  split; [exact Hkeys | ]. apply (Hother "audit.log"). intros [=].
Defined.

(** Three documents, two sessions, three metadata: two records. *)
Lemma log_batch_storage_witness :
  let lg := {| log_path := "ragis_events.log"; pii_mask_fields := [] |} in
  exists recs,
    default [] (log_batch_storage lg (fun _ => "t")
                  [VStr "d1"; VStr "d2"; VStr "d3"] [VStr "s1"; VStr "s2"]
                  [VNone; VNone; VNone] VNone ∅ !! log_path lg)
    = recs /\ length recs = 2%nat.
Proof.
  intros lg.
  destruct (log_batch_storage_stops_at_shortest lg (fun _ => "t")
              [VStr "d1"; VStr "d2"; VStr "d3"] [VStr "s1"; VStr "s2"]
              [VNone; VNone; VNone] VNone ∅) as (recs & H1 & H2 & _).
  exists recs. split; [exact H1 | exact H2].
Defined.

End LoggerMore.

(* ===================================================================== *)
(** ** utils.py: chunking a text                                          *)
(* ===================================================================== *)

Section UtilsFacts.

Import Utils.

Context {char : Type}.

Lemma chunks_from_spec (fuel : nat) :
  forall (text : list char) (i chunk_size : nat),
    (0 < chunk_size)%nat -> (length text - i <= fuel)%nat ->
    let chunks := chunks_from fuel text i (length text) chunk_size in
    concat chunks = drop i text /\
    (forall k c, chunks !! k = Some c ->
                 c = take chunk_size (drop (i + k * chunk_size) text) /\
                 (0 < length c <= chunk_size)%nat) /\
    (length text - i <= chunk_size * length chunks)%nat /\
    (chunk_size * length chunks < length text - i + chunk_size)%nat.
Proof.
  induction fuel as [ | fuel IH]; intros text i cs Hcs Hfuel chunks;
    subst chunks; cbn [chunks_from].
  - simpl. rewrite drop_ge by lia. split; [done | ].
    split; [intros k c Hk; by rewrite lookup_nil in Hk | lia].
  - destruct (i <? length text)%nat eqn:E.
    + apply Nat.ltb_lt in E.
      destruct (IH text (i + cs)%nat cs Hcs ltac:(lia))
        as (Hcat & Hkth & Hlo & Hhi).
      split; [ | split].
      * simpl. rewrite Hcat. rewrite <- drop_drop. apply take_drop.
      * intros [ | k] c Hk; simpl in Hk.
        -- injection Hk as <-. rewrite Nat.add_0_r. split; [done | ].
           rewrite length_take, length_drop. lia.
        -- destruct (Hkth k c Hk) as [-> Hlen]. split; [ | exact Hlen].
           do 2 f_equal. lia.
      * cbn [length]. rewrite Nat.mul_succ_r.
        destruct (decide (length text - i <= cs)%nat) as [Hle | Hgt].
        -- assert (Hz : (length text - (i + cs) = 0)%nat) by lia.
           rewrite Hz in Hhi, Hlo.
           assert (Hk0 : (cs * length (chunks_from fuel text (i + cs)
                                         (length text) cs) = 0)%nat).
           { destruct (length (chunks_from fuel text (i + cs) (length text) cs));
               [lia | ]. rewrite Nat.mul_succ_r in Hhi. lia. }
           lia.
        -- lia.
    + apply Nat.ltb_ge in E. simpl. rewrite drop_ge by lia.
      split; [done | ].
      split; [intros k c Hk; by rewrite lookup_nil in Hk | lia].
Qed.

(** X27.  [split_text_chunks] with a positive [chunk_size] cuts the text
    without loss or overlap: the chunks joined are the text; the [k]-th
    chunk is [text[k*chunk_size : (k+1)*chunk_size]], not empty and at most
    [chunk_size] long; and there are as many chunks as [len(text)] divided
    by [chunk_size], rounded up.  With [chunk_size] zero the generator
    raises ValueError on its first step, and with a negative [chunk_size]
    it yields nothing, whatever the text. *)
Theorem split_text_chunks_cuts_the_text (text : list char) (chunk_size : Z) :
  (0 < chunk_size ->
     exists chunks,
       split_text_chunks text chunk_size = Yields chunks /\
       concat chunks = text /\
       (forall k c, chunks !! k = Some c ->
          c = take (Z.to_nat chunk_size)
                (drop (k * Z.to_nat chunk_size) text) /\
          0 < Z.of_nat (length c) <= chunk_size) /\
       Z.of_nat (length text) <= chunk_size * Z.of_nat (length chunks)
       /\ chunk_size * Z.of_nat (length chunks)
          < Z.of_nat (length text) + chunk_size) /\
  (chunk_size = 0 ->
     split_text_chunks text chunk_size
     = ValueError "range() arg 3 must not be zero") /\
  (chunk_size < 0 -> split_text_chunks text chunk_size = Yields []).
Proof.
  unfold split_text_chunks. split; [ | split].
  - intros Hpos.
    destruct (chunk_size =? 0) eqn:E0; [lia | ].
    destruct (chunk_size <? 0) eqn:E1; [lia | ].
    destruct (chunks_from_spec (length text) text 0 (Z.to_nat chunk_size))
      as (Hcat & Hkth & Hlo & Hhi); [lia | lia | ].
    eexists. split; [reflexivity | ]. split; [exact Hcat | ].
    split.
    + intros k c Hk. destruct (Hkth k c Hk) as [Hc Hlen].
      split; [exact Hc | lia].
    + rewrite Nat.sub_0_r in Hlo, Hhi. nia.
  - by intros ->.
  - intros Hneg. destruct (chunk_size =? 0) eqn:E0; [lia | ].
    destruct (chunk_size <? 0) eqn:E1; [done | lia].
Qed.

End UtilsFacts.

Section UtilsInstances.

Import Utils.

(** Seven characters in chunks of three. *)
Lemma split_text_chunks_witness :
  exists chunks,
    split_text_chunks [1; 2; 3; 4; 5; 6; 7]%nat 3 = Yields chunks /\
    concat chunks = [1; 2; 3; 4; 5; 6; 7]%nat /\
    length chunks = 3%nat.
Proof.
  destruct (split_text_chunks_cuts_the_text [1; 2; 3; 4; 5; 6; 7]%nat 3)
    as [Hpos _].
  destruct (Hpos ltac:(lia)) as (chunks & Hrun & Hcat & _ & Hlo & Hhi).
  exists chunks. split; [exact Hrun | ]. split; [exact Hcat | ].
  simpl in Hlo, Hhi. lia.
Defined.

End UtilsInstances.

(* ===================================================================== *)
(** ** The PIN gate and the secret workflow over the vault                *)
(* ===================================================================== *)

Section AgentFacts.

Import Py Vault Agent.





Lemma isdigit_truthy (m : string) : isdigit m = true -> truthy (Some m) = true.
Proof. unfold isdigit. intros H. by apply andb_prop in H as [H _]. Qed.

Context {C : Crypto}.






Context {L : CryptoLaws C}.



End AgentFacts.

Section AgentInstances.

Import Py Vault Agent.




End AgentInstances.

(* ===================================================================== *)
(** ** The rarest qualifying tag                                          *)
(* ===================================================================== *)

Section RetrieverFacts.

Import Retriever.

Lemma head_insert_by_count (x : string * Z) (l : list (string * Z)) :
  head (insert_by_count x l)
  = Some (match head l with
          | Some y => if x.2 <=? y.2 then x else y
          | None => x
          end).
Proof. destruct l as [ | y l]; simpl; [done | ]. by destruct (x.2 <=? y.2). Qed.

(** The head of the sorted list is the first of the pairs with the least
    count. *)
Lemma head_sorted_by_count (l : list (string * Z)) :
  l <> [] ->
  exists pre x post,
    head (sorted_by_count l) = Some x /\ l = pre ++ x :: post /\
    Forall (fun y => x.2 < y.2) pre /\ Forall (fun y => x.2 <= y.2) post.
Proof.
  induction l as [ | a l IH]; [done | ]. intros _.
  unfold sorted_by_count in *. simpl. rewrite head_insert_by_count.
  destruct l as [ | b l].
  { exists [], a, []. simpl. by repeat split. }
  destruct (IH ltac:(done)) as (pre & x & post & Hhead & Hl & Hpre & Hpost).
  rewrite Hhead. destruct (a.2 <=? x.2) eqn:E.
  - apply Z.leb_le in E. exists [], a, (b :: l). simpl.
    split; [done | ]. split; [done | ]. split; [constructor | ].
    rewrite Hl. apply Forall_app. split.
    + eapply Forall_impl; [exact Hpre | ]. simpl. intros y. lia.
    + constructor; [done | ].
      eapply Forall_impl; [exact Hpost | ]. simpl. intros y. lia.
  - apply Z.leb_gt in E. exists (a :: pre), x, post.
    split; [done | ]. split; [by rewrite Hl | ].
    split; [by constructor | done].
Qed.

(** Where a pair of the filtered list sits in the list itself. *)
Lemma filter_split (P : string * Z -> Prop) `{forall x, Decision (P x)}
    (l pre post : list (string * Z)) (x : string * Z) :
  filter P l = pre ++ x :: post ->
  exists pre' post',
    l = pre' ++ x :: post' /\ filter P pre' = pre /\ filter P post' = post /\
    P x.
Proof.
  revert pre. induction l as [ | a l IH]; intros pre Hf.
  { by destruct pre. }
  rewrite filter_cons in Hf. destruct (decide (P a)) as [Ha | Ha].
  - destruct pre as [ | b pre]; simpl in Hf; injection Hf as -> Hf.
    + exists [], l. by rewrite Hf.
    + destruct (IH pre Hf) as (pre' & post' & -> & Hpre & Hpost & Hx).
      exists (b :: pre'), post'. rewrite filter_cons_True by done.
      by rewrite Hpre.
  - destruct (IH pre Hf) as (pre' & post' & -> & Hpre & Hpost & Hx).
    exists (a :: pre'), post'. by rewrite filter_cons_False.
Qed.

(** X30.  [_get_rarest_qualifying_tag] answers with no tag exactly when no
    count reaches [min_tag_freq].  Otherwise it answers with a pair of the
    dict whose count reaches [min_tag_freq] and is the least of the counts
    that do; among several such pairs it is the one that comes first in the
    dict: every qualifying pair before it has a strictly greater count. *)
Theorem rarest_tag_is_the_first_least (tag_counts : list (string * Z))
    (min_tag_freq : Z) :
  match _get_rarest_qualifying_tag tag_counts min_tag_freq with
  | None => Forall (fun tc => tc.2 < min_tag_freq) tag_counts
  | Some x =>
      exists pre post,
        tag_counts = pre ++ x :: post /\ min_tag_freq <= x.2 /\
        Forall (fun tc => min_tag_freq <= tc.2 -> x.2 < tc.2) pre /\
        Forall (fun tc => min_tag_freq <= tc.2 -> x.2 <= tc.2) post
  end.
Proof.
  unfold _get_rarest_qualifying_tag.
  destruct (filter _ tag_counts) as [ | q qs] eqn:Hq.
  - apply Forall_forall. intros tc Htc.
    destruct (decide (min_tag_freq <= tc.2)) as [Hge | ]; [ | lia].
    assert (Hin : tc ∈ filter (fun tc : string * Z => min_tag_freq <= tc.2)
                         tag_counts)
      by (by apply list_elem_of_filter).
    rewrite Hq in Hin. by apply elem_of_nil in Hin.
  - destruct (head_sorted_by_count (q :: qs) ltac:(done))
      as (pre & x & post & Hhead & Hl & Hpre & Hpost).
    rewrite Hhead. rewrite Hl in Hq.
    destruct (filter_split _ _ _ _ _ Hq)
      as (pre' & post' & -> & Hfpre & Hfpost & Hx).
    exists pre', post'. split; [done | ]. split; [exact Hx | ].
    split; apply Forall_forall; intros tc Htc Hge.
    + assert (Hin : tc ∈ pre)
        by (rewrite <- Hfpre; by apply list_elem_of_filter).
      rewrite Forall_forall in Hpre. by apply Hpre.
    + assert (Hin : tc ∈ post)
        by (rewrite <- Hfpost; by apply list_elem_of_filter).
      rewrite Forall_forall in Hpost. by apply Hpost.
Qed.

(** With a threshold of 10: the counts 3 and 7 do not qualify, and of the
    two tags with count 12 the one entered first is chosen. *)
Lemma rarest_tag_witness :
  exists pre post,
    [("rust", 3); ("api", 12); ("db", 40); ("ui", 12); ("ops", 7)]
    = pre ++ ("api", 12) :: post /\
    Forall (fun tc : string * Z => 10 <= tc.2 -> 12 < tc.2) pre /\
    Forall (fun tc : string * Z => 10 <= tc.2 -> 12 <= tc.2) post.
Proof.
  pose proof (rarest_tag_is_the_first_least
                [("rust", 3); ("api", 12); ("db", 40); ("ui", 12); ("ops", 7)]
                10) as H.
  vm_compute in H. destruct H as (pre & post & Hl & _ & Hpre & Hpost).
  exists pre, post. split; [exact Hl | ]. split; [exact Hpre | exact Hpost].
Defined.

End RetrieverFacts.
